(** * KLineChart common core: a shallow embedding and its properties

    The development follows the TypeScript sources of the [common]
    directory: the numeric helpers ([binarySearchNearest], [nice],
    [getMaxMin]), the action bus ([Action]), the event dispatch tree
    ([Eventful]), the animation driver ([Animation]) and the surface
    manager ([Canvas]).

    Conventions.
    - JavaScript numbers that the code only uses as integers (indices,
      timestamps, logical sizes) are [Z].
    - Where the code computes with fractions ([nice], the pixel sizes
      [Math.round(w * pixelRatio)]) numbers are binary64 floats, with the
      operations of the language on them ([Number] below).
    - An object reference is an identifier; two references are the same
      object exactly when the identifiers are equal.
    - A host callback (frame callback, paint listener, event handler) is
      opaque: its invocation is recorded in a log, it does not call back
      into the object that invokes it.
    - The host frame scheduler is a queue of pending callbacks, fired in
      request order, each at most once. *)

From Stdlib Require Import ZArith QArith Qround Qminmax Qabs Lia.
From Stdlib Require Import Floats.PrimFloat Floats.FloatOps Floats.SpecFloat.
From stdpp Require Import base option list strings gmap.

Local Open Scope Z_scope.

Set Warnings "-register-all".
Set Warnings "-inexact-float".

(** ** JavaScript numbers *)

Module Number.

(** The rational a finite number denotes; [None] for NaN and the
    infinities. Both zeros denote 0. *)
Definition to_Q (x : float) : option Q :=
  match Prim2SF x with
  | S754_zero _ => Some 0%Q
  | S754_finite s m e =>
    Some (inject_Z (if s then Z.neg m else Z.pos m) * Qpower 2 e)%Q
  | S754_infinity _ | S754_nan => None
  end.

(** The number nearest to a rational, ties to even: how a decimal literal
    or a decimal string is read. *)
Definition nearest (q : Q) : float :=
  match Qnum q with
  | Z0 => 0%float
  | Z.pos n =>
    SF2Prim (SFdiv prec emax (S754_finite false n 0)
                              (S754_finite false (Qden q) 0))
  | Z.neg n =>
    SF2Prim (SFdiv prec emax (S754_finite true n 0)
                              (S754_finite false (Qden q) 0))
  end.

(** The number for an integer. *)
Definition of_Z (n : Z) : float := nearest (inject_Z n).

(** The mathematical value of ten to an integer power. *)
Definition pow10 (e : Z) : Q := Qpower 10 e.

(** [Math.floor(x)]: NaN, the infinities and the zeros are returned as they
    are. *)
Definition Math_floor (x : float) : float :=
  match to_Q x with
  | Some v => if Qeq_bool v 0 then x else of_Z (Qfloor v)
  | None => x
  end.

(** A number that is an integer when it is finite: what [Math.round]
    returns. The sign of a zero is not kept. *)
Inductive integer : Type :=
  | Int (n : Z)
  | NaN
  | Infinity (negative : bool).

(** [Math.round(x)]: the nearest integer, halves towards plus infinity. *)
Definition Math_round (x : float) : integer :=
  match Prim2SF x with
  | S754_zero _ => Int 0
  | S754_finite s m e =>
    Int (Qfloor (inject_Z (if s then Z.neg m else Z.pos m) * Qpower 2 e
                 + (1 # 2))%Q)
  | S754_infinity s => Infinity s
  | S754_nan => NaN
  end.

(** [a === b] on such numbers: NaN equals nothing. *)
Definition strict_equal (a b : integer) : bool :=
  match a, b with
  | Int m, Int n => bool_decide (m = n)
  | Infinity s, Infinity s' => Bool.eqb s s'
  | _, _ => false
  end.

(** The conversion to [unsigned long] of the web interfaces: modulo 2^32,
    zero for NaN and the infinities. *)
Definition ToUint32 (v : integer) : Z :=
  match v with
  | Int n => n mod 2 ^ 32
  | NaN | Infinity _ => 0
  end.

(** [+x.toFixed(fractionDigits)]: [x] written with [fractionDigits] decimal
    places and read back. [None] is the [RangeError] of [toFixed] for a
    digit count outside 0..100. At 1e21 and above, and for NaN and the
    infinities, [toFixed] writes the number as [toString] does, which reads
    back as [x]. *)
Definition toFixed_number (x fractionDigits : float) : option float :=
  let f :=
    match to_Q fractionDigits with
    | Some fd => Some (if Qle_bool 0 fd then Qfloor fd else Qceiling fd)
    | None => if PrimFloat.is_nan fractionDigits then Some 0 else None
    end in
  match f with
  | None => None
  | Some f =>
    if decide (0 <= f <= 100) then
      match to_Q x with
      | None => Some x
      | Some v =>
        if Qle_bool (pow10 21) (Qabs v) then Some x
        else
          let n := Qfloor (Qabs v * pow10 f + (1 # 2))%Q in
          let r := nearest (inject_Z n / pow10 f)%Q in
          Some (if Qlt_le_dec v 0 then PrimFloat.opp r else r)
      end
    else None
  end.

End Number.

(** ** Numeric helpers *)

Module Utils.

(** The three ways a run of [binarySearchNearest] can end.  [TypeError i]
    is the exception JavaScript raises for [dataList[i][valueKey]] when
    [dataList[i]] is [undefined], that is when [i] is outside
    [0 .. length - 1].  [OutOfFuel] is an artefact of the fuel and is shown
    never to happen. *)
Inductive outcome : Type :=
  | Returned (index : Z)
  | TypeError (index : Z)
  | OutOfFuel.

(** A run: the indices of [dataList] it read, in program order, and how it
    ended. *)
Record run : Type := Run { reads : list Z; result : outcome }.

Section BinarySearchNearest.
Context {T : Type} (valueKey : T -> Z).

(** [dataList[i]]: [undefined] (here [None]) outside the array. *)
Definition at_index (dataList : list T) (i : Z) : option T :=
  if decide (0 <= i) then dataList !! Z.to_nat i else None.

(** [dataList[i][valueKey]], continuing with [k] on the value read; the
    read is appended to the trace [tr]. *)
Definition read_key (dataList : list T) (i : Z) (tr : list Z)
    (k : Z -> list Z -> run) : run :=
  match at_index dataList i with
  | Some d => k (valueKey d) (tr ++ [i])
  | None => Run (tr ++ [i]) (TypeError i)
  end.

(** The [for (...; left !== right;)] loop, one iteration per unit of
    fuel. *)
Fixpoint search_loop (fuel : nat) (dataList : list T) (targetValue : Z)
    (left right : Z) (tr : list Z) : run :=
  if decide (left = right) then Run tr (Returned left)
  else
    match fuel with
    | O => Run tr OutOfFuel
    | S fuel' =>
      let midIndex := (right + left) `div` 2 in
      let mid := right - left in
      read_key dataList midIndex tr (fun midValue tr =>
      read_key dataList left tr (fun leftValue tr =>
      if decide (targetValue = leftValue) then Run tr (Returned left)
      else
      read_key dataList right tr (fun rightValue tr =>
      if decide (targetValue = rightValue) then Run tr (Returned right)
      else if decide (targetValue = midValue) then Run tr (Returned midIndex)
      else
        let left' := if decide (targetValue > midValue) then midIndex else left in
        let right' := if decide (targetValue > midValue) then right else midIndex in
        if decide (mid <= 2) then Run tr (Returned left')
        else search_loop fuel' dataList targetValue left' right' tr)))
    end.

(** [binarySearchNearest(dataList, valueKey, targetValue)]. *)
Definition binarySearchNearest (dataList : list T) (targetValue : Z) : run :=
  search_loop (S (length dataList)) dataList targetValue
    0 (Z.of_nat (length dataList) - 1) [].

(** The key at index [i], [None] outside the array. *)
Definition key_at (dataList : list T) (i : Z) : option Z :=
  valueKey <$> at_index dataList i.

(** Keys in ascending order. *)
Definition ascending (dataList : list T) : Prop :=
  forall i j x y, (i <= j)%nat ->
    dataList !! i = Some x -> dataList !! j = Some y ->
    valueKey x <= valueKey y.

(** Index [i] is a nearest one: no valid index has a key closer to the
    target. *)
Definition nearest (dataList : list T) (targetValue i : Z) : Prop :=
  exists ki, key_at dataList i = Some ki /\
    forall j kj, key_at dataList j = Some kj ->
      Z.abs (ki - targetValue) <= Z.abs (kj - targetValue).

Definition in_bounds (dataList : list T) (i : Z) : Prop :=
  0 <= i < Z.of_nat (length dataList).

End BinarySearchNearest.

(** The element type of the documentation's example,
    [[{value: 1}, {value: 3}, {value: 5}]]. *)
Record sample : Type := Sample { value : Z }.

(** [Number.MIN_SAFE_INTEGER] and [Number.MAX_SAFE_INTEGER]. *)
Definition MIN_SAFE_INTEGER : Q := inject_Z (- (2 ^ 53 - 1)).
Definition MAX_SAFE_INTEGER : Q := inject_Z (2 ^ 53 - 1).

Section GetMaxMin.
(** [maxKey] and [minKey] read the two fields of an entry: a finite number
    (a rational: [Math.max] and [Math.min] never round), or [None] when the
    field is [undefined] or [null]. *)
Context {D : Type} (maxKey minKey : D -> option Q).

(** The body of the [while] loop: one entry folded into [maxMin]. *)
Definition maxMin_step (maxMin : Q * Q) (data : D) : Q * Q :=
  (Qmax (default MIN_SAFE_INTEGER (maxKey data)) maxMin.1,
   Qmin (default MAX_SAFE_INTEGER (minKey data)) maxMin.2).

(** [getMaxMin(dataList, maxKey, minKey)]. *)
Definition getMaxMin (dataList : list D) : Q * Q :=
  fold_left maxMin_step dataList (MIN_SAFE_INTEGER, MAX_SAFE_INTEGER).
End GetMaxMin.


(** The two library functions [nice] calls, as the host engine provides
    them. The language leaves the precision of [Math.log10] and [Math.pow]
    to the implementation. *)
Record engine : Type := Engine {
  Math_log10 : float -> float;
  Math_pow : float -> float -> float
}.

Section Nice.
Context (host : engine).

(** [log10(value)]. *)
Definition log10 (value : float) : float :=
  if PrimFloat.eqb value 0 then 0%float else Math_log10 host value.

(** [index10(value)]. *)
Definition index10 (value : float) : float := Math_pow host 10 value.

(** [nice(value)]; [None] when [toFixed] throws. *)
Definition nice (value : float) : option float :=
  let exponent := Number.Math_floor (log10 value) in
  let exp10 := index10 exponent in
  let f := PrimFloat.div value exp10 in
  let nf :=
    if PrimFloat.ltb f 1.5 then 1%float
    else if PrimFloat.ltb f 2.5 then 2%float
    else if PrimFloat.ltb f 3.5 then 3%float
    else if PrimFloat.ltb f 4.5 then 4%float
    else if PrimFloat.ltb f 5.5 then 5%float
    else if PrimFloat.ltb f 6.5 then 6%float
    else 8%float in
  let value := PrimFloat.mul nf exp10 in
  Number.toFixed_number value (PrimFloat.abs exponent).
End Nice.

End Utils.

(** ** Action bus *)

Module Action.

Section Bus.
(** [Callback] is the type of callback references, [Data] the type of the
    value handed to [execute]. *)
Context {Callback : Type} `{!EqDecision Callback} {Data : Type}.

(** The instance: its one field [_callbacks]. *)
Record t : Type := Make { _callbacks : list Callback }.

(** [new Action()]. *)
Definition new : t := Make [].

(** [Array.prototype.indexOf]: the first position holding the reference,
    [-1] when there is none. *)
Fixpoint indexOf (l : list Callback) (callback : Callback) : Z :=
  match l with
  | [] => -1
  | c :: l' =>
    if decide (c = callback) then 0
    else let i := indexOf l' callback in
         if decide (i < 0) then -1 else i + 1
  end.

(** [subscribe(callback)]. *)
Definition subscribe (callback : Callback) (a : t) : t :=
  let index := indexOf (_callbacks a) callback in
  if decide (index < 0) then Make (_callbacks a ++ [callback]) else a.

(** [unsubscribe(callback?)]; [None] is the call without an argument (or
    with one that is not a function). [splice(index, 1)] removes the entry
    at [index]. *)
Definition unsubscribe (callback : option Callback) (a : t) : t :=
  match callback with
  | Some c =>
    let index := indexOf (_callbacks a) c in
    if decide (index > -1) then Make (delete (Z.to_nat index) (_callbacks a))
    else a
  | None => Make []
  end.

(** [execute(data)]: the invocations it makes, in order, each a callback
    with the argument it received. *)
Definition execute (data : Data) (a : t) : list (Callback * Data) :=
  map (fun callback => (callback, data)) (_callbacks a).

(** [isEmpty()]. *)
Definition isEmpty (a : t) : bool :=
  bool_decide (length (_callbacks a) = 0%nat).

(** Bus states that calls of [subscribe] and [unsubscribe] on a new bus
    can produce. *)
Inductive reachable : t -> Prop :=
  | reachable_new : reachable new
  | reachable_subscribe c a : reachable a -> reachable (subscribe c a)
  | reachable_unsubscribe c a : reachable a -> reachable (unsubscribe c a).

(** How many times [execute] invoked [callback], with any argument. *)
Definition invocations_of (callback : Callback)
    (log : list (Callback * Data)) : nat :=
  length (filter (fun inv => inv.1 = callback) log).

End Bus.

Arguments t : clear implicits.

End Action.

(** ** Event dispatch tree *)

Module Eventful.

Section Tree.
(** [MouseTouchEvent] is the event object handed through dispatch. *)
Context {MouseTouchEvent : Type}.

Definition EventName : Type := string.

(** A registered handler, [(event, other?) => boolean]: it reports
    whether it consumed the event. *)
Definition MouseTouchEventCallback : Type :=
  MouseTouchEvent -> option Z -> bool.

(** A node. [Eventful] is abstract: a subclass may override
    [checkEventOn]; [hitTest] holds the override, [None] for a node that
    keeps the base implementation. [ident] is the object's identity. *)
Inductive node : Type :=
  Node {
    ident : nat;
    _callbacks : gmap EventName MouseTouchEventCallback;
    _children : list node;
    hitTest : option (MouseTouchEvent -> bool)
  }.

(** One handler invocation: the node that owns the handler and the event
    name it was registered under. *)
Definition invocation : Type := (nat * EventName)%type.

(** [registerEvent(name, callback)]. *)
Definition registerEvent (name : EventName) (callback : MouseTouchEventCallback)
    (n : node) : node :=
  Node (ident n) (<[name := callback]> (_callbacks n)) (_children n) (hitTest n).

(** [addChild(eventful)]. *)
Definition addChild (eventful : node) (n : node) : node :=
  Node (ident n) (_callbacks n) (_children n ++ [eventful]) (hitTest n).

(** [clear()]. *)
Definition clear (n : node) : node :=
  Node (ident n) (_callbacks n) [] (hitTest n).

(** [checkEventOn(event)]: the override if there is one, else the base
    implementation, true iff some child reports a hit (children asked in
    order, stopping at the first hit). *)
Fixpoint checkEventOn (n : node) (event : MouseTouchEvent) : bool :=
  match hitTest n with
  | Some f => f event
  | None =>
    (fix any (cs : list node) : bool :=
       match cs with
       | [] => false
       | c :: cs' => if checkEventOn c event then true else any cs'
       end) (_children n)
  end.

(** [onEvent(name, event, other)]: the result and the invocations made. *)
Definition onEvent (n : node) (name : EventName) (event : MouseTouchEvent)
    (other : option Z) : bool * list invocation :=
  match _callbacks n !! name with
  | Some callback =>
    if checkEventOn n event then (callback event other, [(ident n, name)])
    else (false, [])
  | None => (false, [])
  end.

(** The [for (let i = start; i > -1; i--)] loop of [dispatchEvent] over
    the children [cs], given each child's own dispatch [dispatch]: the
    last child is tried first, and the loop leaves at the first child that
    reports handled. *)
Definition dispatch_children (dispatch : node -> bool * list invocation) :
    list node -> bool * list invocation :=
  fix loop (cs : list node) : bool * list invocation :=
    match cs with
    | [] => (false, [])
    | c :: cs' =>
      let later := loop cs' in
      if later.1 then later
      else let r := dispatch c in (r.1, later.2 ++ r.2)
    end.

(** [dispatchEvent(name, event, other)]: the children first, then, when
    none of them handled the event, the node's own handler. *)
Fixpoint dispatchEvent (n : node) (name : EventName) (event : MouseTouchEvent)
    (other : option Z) {struct n} : bool * list invocation :=
  let children :=
    dispatch_children (fun c => dispatchEvent c name event other)
      (_children n) in
  if children.1 then (true, children.2)
  else let own := onEvent n name event other in
       (own.1, children.2 ++ own.2).

End Tree.

Arguments node : clear implicits.

End Eventful.

(** ** Animation driver *)

Module Animation.

(** A frame-callback reference. *)
Definition CallbackRef : Type := nat.

(** The instance fields; [duration] and [iterationCount] are the two
    entries of [_options]. *)
Record t : Type := Make {
  duration : Z;
  iterationCount : Z;
  _doFrameCallback : option CallbackRef;
  _currentIterationCount : Z;
  _running : bool;
  _time : Z
}.

(** What the host holds for a request made by [_loop]: the closure [step].
    Every [step] closure captures [this] only, so they all behave alike. *)
Inductive frame : Type := Step.

(** The driver in its host: the clock read by [new Date().getTime()], the
    frames requested and not yet fired, and the frame-callback invocations
    made so far, each with its elapsed-time argument. *)
Record world : Type := World {
  self : t;
  now : Z;
  frames : list frame;
  calls : list (CallbackRef * Z)
}.

Definition with_self (f : t -> t) (w : world) : world :=
  World (f (self w)) (now w) (frames w) (calls w).

Definition set_running (b : bool) (a : t) : t :=
  Make (duration a) (iterationCount a) (_doFrameCallback a)
       (_currentIterationCount a) b (_time a).

Definition set_time (x : Z) (a : t) : t :=
  Make (duration a) (iterationCount a) (_doFrameCallback a)
       (_currentIterationCount a) (_running a) x.

Definition set_currentIterationCount (x : Z) (a : t) : t :=
  Make (duration a) (iterationCount a) (_doFrameCallback a)
       x (_running a) (_time a).

(** [new Animation(options)]: [merge] overlays the options that are given
    on the defaults [{ duration: 500, iterationCount: 1 }]. *)
Definition new (duration iterationCount : option Z) : t :=
  Make (default 500 duration) (default 1 iterationCount) None 0 false 0.

(** [requestAnimationFrame(step)]. *)
Definition requestAnimationFrame (f : frame) (w : world) : world :=
  World (self w) (now w) (frames w ++ [f]) (calls w).

(** [this._doFrameCallback?.(frameTime)]. *)
Definition doFrameCallback (frameTime : Z) (w : world) : world :=
  match _doFrameCallback (self w) with
  | Some cb => World (self w) (now w) (frames w) (calls w ++ [(cb, frameTime)])
  | None => w
  end.

(** [_loop()]. *)
Definition _loop (w : world) : world :=
  requestAnimationFrame Step (with_self (set_running true) w).

(** [doFrame(callback)], [setDuration(duration)],
    [setIterationCount(iterationCount)]. *)
Definition doFrame (callback : CallbackRef) (w : world) : world :=
  with_self (fun a => Make (duration a) (iterationCount a) (Some callback)
                        (_currentIterationCount a) (_running a) (_time a)) w.

Definition setDuration (d : Z) (w : world) : world :=
  with_self (fun a => Make d (iterationCount a) (_doFrameCallback a)
                        (_currentIterationCount a) (_running a) (_time a)) w.

Definition setIterationCount (n : Z) (w : world) : world :=
  with_self (fun a => Make (duration a) n (_doFrameCallback a)
                        (_currentIterationCount a) (_running a) (_time a)) w.

(** [start()]. *)
Definition start (w : world) : world :=
  if negb (_running (self w)) then _loop (with_self (set_time (now w)) w)
  else w.

(** [stop()]. *)
Definition stop (w : world) : world :=
  let w1 := if _running (self w) then doFrameCallback (duration (self w)) w
            else w in
  with_self (set_running false) w1.

(** The body of the closure [step]. *)
Definition step (w : world) : world :=
  if _running (self w) then
    let diffTime := now w - _time (self w) in
    if decide (diffTime < duration (self w)) then
      requestAnimationFrame Step (doFrameCallback diffTime w)
    else
      let w1 := stop w in
      let w2 := with_self (fun a =>
                  set_currentIterationCount (_currentIterationCount a + 1) a) w1 in
      if decide (_currentIterationCount (self w2) < iterationCount (self w2))
      then start w2 else w2
  else w.

(** The host fires the oldest pending frame. *)
Definition fire (w : world) : world :=
  match frames w with
  | [] => w
  | Step :: fs => step (World (self w) (now w) fs (calls w))
  end.

(** The clock advances by [d] milliseconds. *)
Definition tick (d : nat) (w : world) : world :=
  World (self w) (now w + Z.of_nat d) (frames w) (calls w).

(** What can happen to a driver: calls of its methods, and the host's two
    moves. *)
Inductive event : Type :=
  | Start
  | Stop
  | DoFrame (callback : CallbackRef)
  | SetDuration (d : Z)
  | SetIterationCount (n : Z)
  | Fire
  | Tick (d : nat).

Definition exec (e : event) (w : world) : world :=
  match e with
  | Start => start w
  | Stop => stop w
  | DoFrame cb => doFrame cb w
  | SetDuration d => setDuration d w
  | SetIterationCount n => setIterationCount n w
  | Fire => fire w
  | Tick d => tick d w
  end.

Definition run (es : list event) (w : world) : world :=
  fold_left (fun w e => exec e w) es w.

(** The host's own moves: time passing and frames firing. *)
Definition host_event (e : event) : bool :=
  match e with Fire | Tick _ => true | _ => false end.

(** A driver just constructed, at clock value [t0], with [callback]
    registered through [doFrame]. *)
Definition fresh (duration iterationCount : option Z) (callback : CallbackRef)
    (t0 : Z) : world :=
  doFrame callback (World (new duration iterationCount) t0 [] []).

(** The elapsed-time arguments the frame callback received. *)
Definition elapsed (w : world) : list Z := map snd (calls w).

End Animation.

(** ** Surface manager *)

Module Canvas.
Import Number.

(** [DEFAULT_REQUEST_ID]. *)
Definition DEFAULT_REQUEST_ID : Z := -1.

(** A call that either completes or throws. *)
Inductive completion (A : Type) : Type :=
  | Normal (a : A)
  | Throw.
Arguments Normal {A} a.
Arguments Throw {A}.

(** A platform observer object held in a field: whether it is currently
    registered (observing the canvas element, or listening for density
    changes). A field that was never assigned is [None] ([undefined]). *)
Record observer : Type := Observer { registered : bool }.

(** The instance fields. The logical size is read from [clientWidth] and
    [clientHeight], which are integers; the pixel sizes come out of
    [Math.round] or out of an observer report. *)
Record t : Type := Make {
  _resizeObserver : option observer;
  _mediaQueryList : option observer;
  _supportedDevicePixelContentBox : bool;
  _width : Z;
  _height : Z;
  _pixelWidth : integer;
  _pixelHeight : integer;
  _nextPixelWidth : integer;
  _nextPixelHeight : integer;
  _requestAnimationId : Z
}.

(** The canvas element: the CSS box ([clientWidth], [clientHeight], which
    follow the [style.width] and [style.height] in force) and the pixel
    buffer ([width], [height]). *)
Record element : Type := Element {
  clientWidth : Z;
  clientHeight : Z;
  width : Z;
  height : Z
}.

(** The size of the buffer of a canvas element whose [width] and [height]
    were never assigned. *)
Definition DEFAULT_WIDTH : Z := 300.
Definition DEFAULT_HEIGHT : Z := 150.

(** [element.style.width = `${w}px`] as seen through [clientWidth]: a
    negative length is not a valid value of the property, the assignment is
    dropped and the length in force stays. *)
Definition style_length (current w : Z) : Z :=
  if decide (0 <= w) then w else current.

(** [element.width = v]: [v] is converted to [unsigned long], and a value
    above 2^31 - 1 is replaced by the default. *)
Definition dimension (default : Z) (v : integer) : Z :=
  if decide (ToUint32 v <= 2147483647) then ToUint32 v else default.

(** What the 2-D context and the paint listener see happen: [Resize] with
    the size the buffer takes, [Paint] with the size of the buffer the
    listener finds. [Scale] keeps both ratios as the code divides them,
    [hnum / hden] and [vnum / vden]. *)
Inductive effect : Type :=
  | ClearRect (w h : Z)
  | Resize (width height : Z)
  | Scale (hnum : integer) (hden : Z) (vnum : integer) (vden : Z)
  | Paint (width height : Z).

(** The optional argument of [_executeListener]: the one closure the code
    ever passes is the reconciliation of [_resetPixelRatio]. *)
Inductive fn : Type := ResetPixelRatio.

(** The capability probe of the constructor: pending, or settled. *)
Inductive probe : Type := Pending | Settled.

(** The canvas in its host. [devicePixelRatio] is what [getPixelRatio]
    returns for the element; [frames] are the frame requests not yet fired,
    each with the handle [requestAnimationFrame] returned for it. *)
Record world : Type := World {
  self : t;
  elem : element;
  devicePixelRatio : float;
  probing : probe;
  frames : list (positive * option fn);
  next_handle : positive;
  log : list effect
}.

Definition with_self (f : t -> t) (w : world) : world :=
  World (f (self w)) (elem w) (devicePixelRatio w) (probing w) (frames w)
        (next_handle w) (log w).

Definition emit (e : effect) (w : world) : world :=
  World (self w) (elem w) (devicePixelRatio w) (probing w) (frames w)
        (next_handle w) (log w ++ [e]).

Definition set_next (pw ph : integer) (c : t) : t :=
  Make (_resizeObserver c) (_mediaQueryList c) (_supportedDevicePixelContentBox c)
       (_width c) (_height c) (_pixelWidth c) (_pixelHeight c) pw ph
       (_requestAnimationId c).

Definition set_requestAnimationId (id : Z) (c : t) : t :=
  Make (_resizeObserver c) (_mediaQueryList c) (_supportedDevicePixelContentBox c)
       (_width c) (_height c) (_pixelWidth c) (_pixelHeight c)
       (_nextPixelWidth c) (_nextPixelHeight c) id.

(** [Math.round(n * pixelRatio)]: the product is the product of doubles. *)
Definition scaled (n : Z) (pixelRatio : float) : integer :=
  Math_round (PrimFloat.mul (of_Z n) pixelRatio).

(** [new Canvas(style, listener)] up to the probe's [then]: the fields at
    their initialisers, the probe pending. [createDom] assigns styles only:
    the element has the CSS box its style gives it, [clientWidth] by
    [clientHeight], and the buffer of a new canvas element. *)
Definition new (clientWidth clientHeight : Z) (pixelRatio : float) : world :=
  World (Make None None false 0 0 (Int 0) (Int 0) (Int 0) (Int 0)
              DEFAULT_REQUEST_ID)
        (Element clientWidth clientHeight DEFAULT_WIDTH DEFAULT_HEIGHT)
        pixelRatio Pending [] 1%positive [].

(** The closure [_resetPixelRatio] hands to [_executeListener]. *)
Definition reconcile (w : world) : world :=
  let width := clientWidth (elem w) in
  let height := clientHeight (elem w) in
  let c := self w in
  let pw := _nextPixelWidth c in
  let ph := _nextPixelHeight c in
  let c' := Make (_resizeObserver c) (_mediaQueryList c)
                 (_supportedDevicePixelContentBox c)
                 width height pw ph pw ph (_requestAnimationId c) in
  let e' := Element width height (dimension DEFAULT_WIDTH pw)
                    (dimension DEFAULT_HEIGHT ph) in
  let w1 := World c' e' (devicePixelRatio w) (probing w) (frames w)
                  (next_handle w) (log w) in
  emit (Scale pw width ph height)
       (emit (Resize (dimension DEFAULT_WIDTH pw) (dimension DEFAULT_HEIGHT ph))
             w1).

(** The frame callback [_executeListener] requests. *)
Definition frame_body (f : option fn) (w : world) : world :=
  let w1 := emit (ClearRect (_width (self w)) (_height (self w))) w in
  let w2 := match f with Some ResetPixelRatio => reconcile w1 | None => w1 end in
  let w3 := emit (Paint (width (elem w2)) (height (elem w2))) w2 in
  with_self (set_requestAnimationId DEFAULT_REQUEST_ID) w3.

(** [_executeListener(fn)]. *)
Definition _executeListener (f : option fn) (w : world) : world :=
  if decide (_requestAnimationId (self w) = DEFAULT_REQUEST_ID) then
    let id := next_handle w in
    World (set_requestAnimationId (Z.pos id) (self w)) (elem w)
          (devicePixelRatio w) (probing w) (frames w ++ [(id, f)])
          (Pos.succ id) (log w)
  else w.

(** [_resetPixelRatio()]. *)
Definition _resetPixelRatio (w : world) : world :=
  _executeListener (Some ResetPixelRatio) w.

(** [_mediaQueryListener()]. *)
Definition _mediaQueryListener (w : world) : world :=
  let pixelRatio := devicePixelRatio w in
  _resetPixelRatio
    (with_self (set_next (scaled (clientWidth (elem w)) pixelRatio)
                         (scaled (clientHeight (elem w)) pixelRatio)) w).

(** The callback of the [ResizeObserver] the constructor installs; [size]
    is [devicePixelContentBoxSize[0]] of the entry for the canvas element,
    a size in whole device pixels, [None] when there is no such entry. *)
Definition resizeObserverCallback (size : option (Z * Z)) (w : world) : world :=
  match size with
  | Some (inlineSize, blockSize) =>
    let w1 := with_self (set_next (Int inlineSize) (Int blockSize)) w in
    if negb (strict_equal (_pixelWidth (self w1)) (_nextPixelWidth (self w1)))
       || negb (strict_equal (_pixelHeight (self w1)) (_nextPixelHeight (self w1)))
    then _resetPixelRatio w1 else w1
  | None => w
  end.

(** [update(w, h)]. *)
Definition update (w h : Z) (s : world) : world :=
  if decide (_width (self s) <> w \/ _height (self s) <> h) then
    let s1 := World (self s)
                    (Element (style_length (clientWidth (elem s)) w)
                             (style_length (clientHeight (elem s)) h)
                             (width (elem s)) (height (elem s)))
                    (devicePixelRatio s) (probing s) (frames s)
                    (next_handle s) (log s) in
    if negb (_supportedDevicePixelContentBox (self s1)) then
      let pixelRatio := devicePixelRatio s1 in
      _resetPixelRatio
        (with_self (set_next (scaled w pixelRatio) (scaled h pixelRatio)) s1)
    else s1
  else _executeListener None s.

(** The [then] of the constructor, run when the probe settles with
    [result]; a probe that fails settles with [false]. *)
Definition probe_then (result : bool) (w : world) : world :=
  let c := self w in
  let c' :=
    if result then
      Make (Some (Observer true)) (_mediaQueryList c) result
           (_width c) (_height c) (_pixelWidth c) (_pixelHeight c)
           (_nextPixelWidth c) (_nextPixelHeight c) (_requestAnimationId c)
    else
      Make (_resizeObserver c) (Some (Observer true)) result
           (_width c) (_height c) (_pixelWidth c) (_pixelHeight c)
           (_nextPixelWidth c) (_nextPixelHeight c) (_requestAnimationId c) in
  World c' (elem w) (devicePixelRatio w) Settled (frames w) (next_handle w)
        (log w).

(** [observer.unobserve(element)] and [list.removeListener(listener)]: a
    method call on the object in the field, a [TypeError] when the field is
    [undefined]. *)
Definition unregister (o : option observer) : completion (option observer) :=
  match o with
  | Some _ => Normal (Some (Observer false))
  | None => Throw
  end.

(** [isValid(value)]: neither [null] nor [undefined]. *)
Definition isValid {A : Type} (value : option A) : bool :=
  match value with Some _ => true | None => false end.

(** [destroy()]. *)
Definition destroy (w : world) : completion world :=
  let c := self w in
  match (if isValid (_resizeObserver c) then unregister (_resizeObserver c)
         else Normal (_resizeObserver c)) with
  | Throw => Throw
  | Normal ro =>
    match (if isValid (_mediaQueryList c) then unregister (_mediaQueryList c)
           else Normal (_mediaQueryList c)) with
    | Throw => Throw
    | Normal mq =>
      Normal (with_self (fun c =>
        Make ro mq (_supportedDevicePixelContentBox c)
             (_width c) (_height c) (_pixelWidth c) (_pixelHeight c)
             (_nextPixelWidth c) (_nextPixelHeight c) (_requestAnimationId c)) w)
    end
  end.

(** What can happen to a canvas: calls of [update] and [destroy], and the
    host's moves: the probe settles, the display density changes, the
    resize observer reports, the oldest pending frame fires. *)
Inductive event : Type :=
  | Update (w h : Z)
  | Destroy
  | ProbeSettles (result : bool)
  | DensityChanges (pixelRatio : float)
  | ResizeReported (size : option (Z * Z))
  | Fire.

(** An installed media-query listener runs on a density change, an
    installed resize observer on a report; neither runs once
    unregistered. The probe settles once. *)
Definition exec (e : event) (w : world) : completion world :=
  match e with
  | Update x y => Normal (update x y w)
  | Destroy => destroy w
  | ProbeSettles result =>
    match probing w with
    | Pending => Normal (probe_then result w)
    | Settled => Normal w
    end
  | DensityChanges r =>
    let w1 := World (self w) (elem w) r (probing w) (frames w)
                    (next_handle w) (log w) in
    match _mediaQueryList (self w1) with
    | Some (Observer true) => Normal (_mediaQueryListener w1)
    | _ => Normal w1
    end
  | ResizeReported size =>
    match _resizeObserver (self w) with
    | Some (Observer true) => Normal (resizeObserverCallback size w)
    | _ => Normal w
    end
  | Fire =>
    match frames w with
    | [] => Normal w
    | (_, f) :: fs =>
      Normal (frame_body f (World (self w) (elem w) (devicePixelRatio w)
                                  (probing w) fs (next_handle w) (log w)))
    end
  end.

Fixpoint run (es : list event) (w : world) : completion world :=
  match es with
  | [] => Normal w
  | e :: es' =>
    match exec e w with
    | Normal w' => run es' w'
    | Throw => Throw
    end
  end.

(** The repaint triggers of the coalescing rule: [update] calls and
    density or size notifications. *)
Definition trigger (e : event) : bool :=
  match e with
  | Update _ _ | DensityChanges _ | ResizeReported _ => true
  | _ => false
  end.

(** Paint-listener invocations and physical reconciliations in a log. *)
Definition is_paint (e : effect) : bool :=
  match e with Paint _ _ => true | _ => false end.

Definition is_resize (e : effect) : bool :=
  match e with Resize _ _ => true | _ => false end.

Definition paints (l : list effect) : nat := length (filter is_paint l).
Definition reconciliations (l : list effect) : nat := length (filter is_resize l).

(** Whether a platform observer is installed and registered. *)
Definition installed (o : option observer) : bool :=
  match o with Some (Observer true) => true | _ => false end.

End Canvas.

(** * Properties *)

(** ** [binarySearchNearest] *)

Module UtilsFacts.
Import Utils.

Section Bounds.
Context {T : Type} (valueKey : T -> Z).

Lemma at_index_in_bounds (dataList : list T) (i : Z) :
  in_bounds dataList i -> exists d, at_index dataList i = Some d.
Proof.
  unfold in_bounds, at_index. intros [Hlo Hhi].
  destruct (decide (0 <= i)) as [_|]; [|lia].
  destruct (lookup_lt_is_Some_2 dataList (Z.to_nat i)) as [d Hd]; [lia|].
  by exists d.
Qed.

Lemma midIndex_between (left right : Z) :
  left < right -> left <= (right + left) `div` 2 < right.
Proof.
  intros. split.
  - apply Z.div_le_lower_bound; lia.
  - apply Z.div_lt_upper_bound; lia.
Qed.

Lemma midIndex_strict (left right : Z) :
  2 < right - left -> left < (right + left) `div` 2.
Proof.
  intros. apply Z.lt_le_trans with (left + 1); [lia|].
  apply Z.div_le_lower_bound; lia.
Qed.

(** The loop invariant: with the window inside the array and fuel for
    its width, the loop returns an index of the window and reads nothing
    outside the array. *)
Lemma search_loop_in_bounds (dataList : list T) (targetValue : Z) :
  forall (fuel : nat) (left right : Z) (tr : list Z),
    0 <= left -> left <= right -> right < Z.of_nat (length dataList) ->
    right - left <= Z.of_nat fuel ->
    Forall (in_bounds dataList) tr ->
    exists i,
      result (search_loop valueKey fuel dataList targetValue left right tr)
        = Returned i
      /\ left <= i <= right
      /\ Forall (in_bounds dataList)
           (reads (search_loop valueKey fuel dataList targetValue left right tr)).
Proof.
  induction fuel as [|fuel IH]; intros left right tr Hl Hlr Hr Hfuel Htr.
  - simpl. destruct (decide (left = right)); [|lia].
    exists left. simpl. repeat split; [lia|lia|done].
  - simpl. destruct (decide (left = right)).
    { exists left. simpl. repeat split; [lia|lia|done]. }
    assert (left < right) as Hlt by lia.
    pose proof (midIndex_between left right Hlt) as Hmid.
    set (midIndex := (right + left) `div` 2) in *.
    assert (in_bounds dataList midIndex) as Bm by (unfold in_bounds; lia).
    assert (in_bounds dataList left) as Bl by (unfold in_bounds; lia).
    assert (in_bounds dataList right) as Br by (unfold in_bounds; lia).
    destruct (at_index_in_bounds _ _ Bm) as [dm Hm].
    destruct (at_index_in_bounds _ _ Bl) as [dl Hdl].
    destruct (at_index_in_bounds _ _ Br) as [dr Hdr].
    unfold read_key. rewrite Hm, Hdl.
    assert (Forall (in_bounds dataList) ((tr ++ [midIndex]) ++ [left])) as Htr2.
    { rewrite !Forall_app. repeat split; auto. }
    destruct (decide (targetValue = valueKey dl)).
    { exists left. simpl. repeat split; [lia|lia|done]. }
    rewrite Hdr.
    assert (Forall (in_bounds dataList)
              (((tr ++ [midIndex]) ++ [left]) ++ [right])) as Htr3.
    { rewrite Forall_app. split; auto. }
    destruct (decide (targetValue = valueKey dr)).
    { exists right. simpl. repeat split; [lia|lia|done]. }
    destruct (decide (targetValue = valueKey dm)).
    { exists midIndex. simpl. repeat split; [lia|lia|done]. }
    destruct (decide (right - left <= 2)).
    { destruct (decide (targetValue > valueKey dm)).
      - exists midIndex. simpl. repeat split; [lia|lia|done].
      - exists left. simpl. repeat split; [lia|lia|done]. }
    pose proof (midIndex_strict left right ltac:(lia)) as Hstrict.
    fold midIndex in Hstrict.
    destruct (decide (targetValue > valueKey dm)).
    + destruct (IH midIndex right _ ltac:(lia) ltac:(lia) Hr ltac:(lia) Htr3)
        as (i & Hres & Hi & Hreads).
      exists i. repeat split; [done|lia|lia|done].
    + destruct (IH left midIndex _ Hl ltac:(lia) ltac:(lia) ltac:(lia) Htr3)
        as (i & Hres & Hi & Hreads).
      exists i. repeat split; [done|lia|lia|done].
Qed.

End Bounds.

(** C10. For every non-empty list, [binarySearchNearest] reads only indices
    within [0 .. length - 1] and returns an index within [0 .. length - 1];
    for every one-element list it returns 0 without entering the loop (no
    read is made). For the empty list the guarantee does not hold: the first
    iteration reads index -1, which raises a [TypeError]. *)
Theorem binarySearchNearest_in_bounds {T : Type} (valueKey : T -> Z)
    (dataList : list T) (targetValue : Z) :
  (dataList <> [] ->
   exists i,
     result (binarySearchNearest valueKey dataList targetValue) = Returned i
     /\ in_bounds dataList i
     /\ Forall (in_bounds dataList)
          (reads (binarySearchNearest valueKey dataList targetValue)))
  /\ (forall d : T,
        binarySearchNearest valueKey [d] targetValue = Run [] (Returned 0))
  /\ binarySearchNearest valueKey (@nil T) targetValue
       = Run [-1] (TypeError (-1)).
Proof.
  split; [|split].
  - intros Hne. unfold binarySearchNearest.
    assert (0 < length dataList)%nat by (destruct dataList; [done|simpl; lia]).
    destruct (search_loop_in_bounds valueKey dataList targetValue
                (S (length dataList)) 0 (Z.of_nat (length dataList) - 1) [])
      as (i & Hres & Hi & Hreads); [lia|lia|lia|lia|done|].
    exists i. unfold in_bounds. repeat split; [done|lia|lia|done].
  - intros d. reflexivity.
  - reflexivity.
Qed.

(** Witness of C10 on the documentation's example list, target 4. *)
Lemma binarySearchNearest_in_bounds_witness :
  exists i,
    result (binarySearchNearest value [Sample 1; Sample 3; Sample 5] 4)
      = Returned i
    /\ in_bounds [Sample 1; Sample 3; Sample 5] i
    /\ Forall (in_bounds [Sample 1; Sample 3; Sample 5])
         (reads (binarySearchNearest value [Sample 1; Sample 3; Sample 5] 4)).
Proof.
  apply (binarySearchNearest_in_bounds value [Sample 1; Sample 3; Sample 5] 4).
  discriminate.
Defined.

(** C1, at an input where the code departs from it. On the ascending list
    with keys 1, 3, 10 and target 9 the function returns index 1 (key 3, at
    distance 6) although index 2 (key 10) is at distance 1; on keys 1, 2 and
    target 100, above the maximum, it returns index 0 although index 1 is
    nearer. Both lists are ascending, and in neither case is the returned
    index a nearest one. *)
Theorem binarySearchNearest_not_nearest :
  let S1 := [Sample 1; Sample 3; Sample 10] in
  let S2 := [Sample 1; Sample 2] in
  ascending value S1
  /\ binarySearchNearest value S1 9 = Run [1; 0; 2] (Returned 1)
  /\ ~ nearest value S1 9 1
  /\ nearest value S1 9 2
  /\ ascending value S2
  /\ binarySearchNearest value S2 100 = Run [0; 0; 1] (Returned 0)
  /\ ~ nearest value S2 100 0
  /\ nearest value S2 100 1.
Proof.
  assert (forall l : list sample,
           (forall i j x y, (i <= j)%nat -> (j < length l)%nat ->
              l !! i = Some x -> l !! j = Some y -> value x <= value y) ->
           ascending value l) as Hasc.
  { intros l H i j x y Hij Hx Hy. apply (H i j); try done.
    by apply lookup_lt_Some in Hy. }
  assert (forall (l : list sample) (t i ki : Z),
           key_at value l i = Some ki ->
           (forall j, (j < length l)%nat -> forall kj,
               key_at value l (Z.of_nat j) = Some kj ->
               Z.abs (ki - t) <= Z.abs (kj - t)) ->
           nearest value l t i) as Hnear.
  { intros l t i ki Hki H. exists ki. split; [done|]. intros j kj Hj.
    unfold key_at, at_index in Hj. destruct (decide (0 <= j)); [|done].
    destruct (l !! Z.to_nat j) eqn:E; [|done].
    apply lookup_lt_Some in E as Hlt.
    apply (H (Z.to_nat j) Hlt). rewrite Z2Nat.id by done.
    unfold key_at, at_index. destruct (decide (0 <= j)); [|done]. by rewrite E. }
  simpl. repeat split.
  - apply Hasc. intros i j x y Hij Hj.
    destruct j as [|[|[|j]]]; simpl in Hj; [| | |lia];
      destruct i as [|[|[|i]]]; try lia; simpl; intros; simplify_eq; simpl; lia.
  - intros (ki & Hki & H). vm_compute in Hki. simplify_eq.
    specialize (H 2 10 eq_refl). lia.
  - apply (Hnear _ _ _ 10); [done|].
    intros j Hj kj. destruct j as [|[|[|j]]]; simpl in Hj; [| | |lia];
      vm_compute; intros; simplify_eq; lia.
  - apply Hasc. intros i j x y Hij Hj.
    destruct j as [|[|j]]; simpl in Hj; [| |lia];
      destruct i as [|[|i]]; try lia; simpl; intros; simplify_eq; simpl; lia.
  - intros (ki & Hki & H). vm_compute in Hki. simplify_eq.
    specialize (H 1 2 eq_refl). lia.
  - apply (Hnear _ _ _ 2); [done|].
    intros j Hj kj. destruct j as [|[|j]]; simpl in Hj; [| |lia];
      vm_compute; intros; simplify_eq; lia.
Qed.

End UtilsFacts.


(** ** [nice] *)

Module NiceFacts.
Import Utils.

(** The mantissa the breakpoints 1.5, 2.5, ..., 6.5 select for a quotient
    [f = value / 10^exponent]. *)
Definition snapped (f : float) : Z :=
  if PrimFloat.ltb f 1.5 then 1
  else if PrimFloat.ltb f 2.5 then 2
  else if PrimFloat.ltb f 3.5 then 3
  else if PrimFloat.ltb f 4.5 then 4
  else if PrimFloat.ltb f 5.5 then 5
  else if PrimFloat.ltb f 6.5 then 6
  else 8.

Definition mantissas : list Z := [1; 2; 3; 4; 5; 6; 8].

(** The quotient the specification speaks of,
    [nice(value) / 10^floor(log10(nice(value)))], as the code's own
    functions compute it, and whether it is one of the seven mantissas. *)
Definition mantissa_of (host : engine) (r : float) : float :=
  PrimFloat.div r (index10 host (Number.Math_floor (log10 host r))).

Definition mantissa_exact (host : engine) (value : float) : bool :=
  match nice host value with
  | Some r =>
    existsb (fun m => PrimFloat.eqb (mantissa_of host r) (Number.of_Z m))
            mantissas
  | None => false
  end.

(** An engine fixed at the arguments the examples below pass to it, with
    the correctly rounded results there. *)
Definition sampled : engine :=
  Engine
    (fun x =>
       if PrimFloat.eqb x 0.3 then (-0.5228787452803376)%float
       else if PrimFloat.eqb x 3.7 then 0.568201724066995%float
       else if PrimFloat.eqb x 4 then 0.6020599913279624%float
       else if PrimFloat.eqb x 1e-101 then (-101)%float
       else PrimFloat.nan)
    (fun x y =>
       if PrimFloat.eqb x 10 && PrimFloat.eqb y (-1) then 0.1%float
       else if PrimFloat.eqb x 10 && PrimFloat.eqb y 0 then 1%float
       else if PrimFloat.eqb x 10 && PrimFloat.eqb y (-101) then 1e-101%float
       else PrimFloat.nan).

(** What [toFixed] does to the product [m * 10^e] that [nice] hands it, for
    every exponent from -100 to 20 and every mantissa: the number read back
    is the one nearest to the decimal [m * 10^e]. *)
Lemma toFixed_cleans :
  Forall (fun e =>
    Forall (fun m =>
      Number.toFixed_number
        (PrimFloat.mul (Number.of_Z m) (Number.nearest (Number.pow10 e)))
        (PrimFloat.abs (Number.of_Z e))
      = Some (Number.nearest (inject_Z m * Number.pow10 e)%Q)) mantissas)
    (seqZ (-100) 121).
Proof.
  repeat (constructor;
          [repeat (constructor; [vm_compute; reflexivity|]); constructor|]).
  constructor.
Qed.

(** From exponent 21 on the product is at least 1e21 and [toFixed] hands it
    back as it is. *)
Lemma toFixed_keeps :
  Forall (fun e =>
    Forall (fun m =>
      Number.toFixed_number
        (PrimFloat.mul (Number.of_Z m) (Number.nearest (Number.pow10 e)))
        (PrimFloat.abs (Number.of_Z e))
      = Some (PrimFloat.mul (Number.of_Z m)
                            (Number.nearest (Number.pow10 e)))) mantissas)
    (seqZ 21 80).
Proof.
  repeat (constructor;
          [repeat (constructor; [vm_compute; reflexivity|]); constructor|]).
  constructor.
Qed.

Lemma snapped_mantissa (f : float) : snapped f ∈ mantissas.
Proof.
  unfold snapped, mantissas.
  repeat (destruct (PrimFloat.ltb f _); [set_solver|]). set_solver.
Qed.

(** The body of [nice] once exponent and power of ten are known. *)
Lemma nice_unfold (host : engine) (value : float) (e : Z) :
  Number.Math_floor (log10 host value) = Number.of_Z e ->
  Math_pow host 10 (Number.of_Z e) = Number.nearest (Number.pow10 e) ->
  nice host value
  = Number.toFixed_number
      (PrimFloat.mul
         (Number.of_Z
            (snapped (PrimFloat.div value (Number.nearest (Number.pow10 e)))))
         (Number.nearest (Number.pow10 e)))
      (PrimFloat.abs (Number.of_Z e)).
Proof.
  intros Hfloor Hpow. unfold nice, index10, snapped.
  rewrite Hfloor, Hpow.
  repeat (destruct (PrimFloat.ltb _ _); [reflexivity|]). reflexivity.
Qed.




End NiceFacts.
(** ** Action bus *)

Module ActionFacts.
Import Action.

Section BusFacts.
Context {Callback : Type} `{!EqDecision Callback} {Data : Type}.
Implicit Types (a : Action.t Callback) (c f : Callback) (x : Data).

Lemma indexOf_ge l c : -1 <= indexOf l c.
Proof.
  induction l as [|d l IH]; simpl; [lia|].
  destruct (decide (d = c)); [lia|].
  destruct (decide (indexOf l c < 0)); lia.
Qed.

Lemma indexOf_absent l c : indexOf l c < 0 <-> c ∉ l.
Proof.
  induction l as [|d l IH]; simpl.
  - split; [intros _; apply not_elem_of_nil | lia].
  - rewrite not_elem_of_cons.
    destruct (decide (d = c)) as [->|Hne].
    + split; [lia | intros [? _]; done].
    + pose proof (indexOf_ge l c).
      destruct (decide (indexOf l c < 0)) as [Hneg|Hpos].
      * split; [intros _; split; [congruence | by apply IH] | lia].
      * split; [lia | intros [_ Hni]; apply IH in Hni; lia].
Qed.

Lemma subscribe_elem f a : f ∈ _callbacks (subscribe f a).
Proof.
  unfold subscribe.
  destruct (decide (indexOf (_callbacks a) f < 0)) as [Hneg|Hpos]; simpl.
  - apply elem_of_app. right. apply list_elem_of_singleton. done.
  - destruct (decide (f ∈ _callbacks a)) as [|Hni]; [done|].
    apply indexOf_absent in Hni. lia.
Qed.

(** Subscribing a reference that is already there changes nothing. *)
Lemma subscribe_idempotent f a : subscribe f (subscribe f a) = subscribe f a.
Proof.
  pose proof (subscribe_elem f a) as Hin.
  unfold subscribe at 1.
  destruct (decide (indexOf (_callbacks (subscribe f a)) f < 0)) as [Hneg|];
    [|done].
  apply indexOf_absent in Hneg. done.
Qed.

Lemma subscribe_NoDup f a :
  NoDup (_callbacks a) -> NoDup (_callbacks (subscribe f a)).
Proof.
  intros Hnd. unfold subscribe.
  destruct (decide (indexOf (_callbacks a) f < 0)) as [Hneg|]; [|done].
  simpl. apply indexOf_absent in Hneg.
  apply NoDup_app. repeat split; [done| |apply NoDup_singleton].
  intros y Hy Hy'. apply list_elem_of_singleton in Hy'. by subst.
Qed.

Lemma unsubscribe_NoDup o a :
  NoDup (_callbacks a) -> NoDup (_callbacks (unsubscribe o a)).
Proof.
  intros Hnd. destruct o as [c|]; simpl; [|apply NoDup_nil_2].
  destruct (decide (indexOf (_callbacks a) c > -1)); [|done].
  simpl. eapply sublist_NoDup; [done|apply sublist_delete].
Qed.

(** The uniqueness invariant of the subscription list. *)
Lemma reachable_NoDup a : reachable a -> NoDup (_callbacks a).
Proof.
  induction 1; [apply NoDup_nil_2 | by apply subscribe_NoDup
               | by apply unsubscribe_NoDup].
Qed.

Lemma execute_once l f x :
  NoDup l -> f ∈ l ->
  filter (fun inv : Callback * Data => inv.1 = f)
         (map (fun callback => (callback, x)) l) = [(f, x)].
Proof.
  induction 1 as [|d l Hd Hnd IH]; intros Hin.
  - by apply elem_of_nil in Hin.
  - simpl. apply elem_of_cons in Hin as [->|Hin].
    + rewrite filter_cons_True by done. f_equal.
      clear IH. induction l as [|e l IHl]; [done|].
      apply not_elem_of_cons in Hd as [Hne Hd]. apply NoDup_cons in Hnd as [_ Hnd].
      simpl. rewrite filter_cons_False by (simpl; congruence). auto.
    + rewrite filter_cons_False; [by apply IH|].
      simpl. intros ->. done.
Qed.

End BusFacts.

(** C8. Subscription is idempotent on the callback reference, and
    [unsubscribe()] without an argument empties the set: in any state of the
    bus, after [subscribe(f); subscribe(f)] the call [execute(x)] invokes
    [f] exactly once, with [x]; on a new bus that is its only invocation;
    and after a following [unsubscribe()], [execute(x)] invokes nothing. *)
Theorem subscribe_twice_execute_once {Callback : Type} `{!EqDecision Callback}
    {Data : Type} (a : Action.t Callback) (f : Callback) (x : Data) :
  reachable a ->
  subscribe f (subscribe f a) = subscribe f a
  /\ filter (fun inv : Callback * Data => inv.1 = f)
            (execute x (subscribe f (subscribe f a))) = [(f, x)]
  /\ invocations_of f (execute x (subscribe f (subscribe f a))) = 1%nat
  /\ execute x (subscribe f (subscribe f new)) = [(f, x)]
  /\ execute x (unsubscribe None (subscribe f (subscribe f a))) = []
  /\ isEmpty (unsubscribe None (subscribe f (subscribe f a))) = true.
Proof.
  intros Hr.
  assert (filter (fun inv : Callback * Data => inv.1 = f)
            (execute x (subscribe f (subscribe f a))) = [(f, x)]) as Hone.
  { rewrite subscribe_idempotent. unfold execute.
    apply execute_once; [|apply subscribe_elem].
    apply subscribe_NoDup, reachable_NoDup, Hr. }
  repeat split.
  - apply subscribe_idempotent.
  - exact Hone.
  - unfold invocations_of. by rewrite Hone.
  - unfold subscribe, execute. simpl.
    destruct (decide (-1 < 0)); [|lia]. simpl.
    destruct (decide (f = f)); [|done]. simpl. done.
Qed.

(** Witness of C8: a bus on which [7] and then [3] were subscribed and [7]
    unsubscribed again; the callback is [3], the data [42]. *)
Lemma subscribe_twice_execute_once_witness :
  let a : Action.t nat := unsubscribe (Some 7%nat) (subscribe 3%nat (subscribe 7%nat new)) in
  filter (fun inv : nat * Z => inv.1 = 3%nat)
         (execute 42 (subscribe 3%nat (subscribe 3%nat a))) = [(3%nat, 42)].
Proof.
  simpl.
  refine (proj1 (proj2 (subscribe_twice_execute_once
            (unsubscribe (Some 7%nat) (subscribe 3%nat (subscribe 7%nat new)))
            3%nat 42 _))).
  apply reachable_unsubscribe, reachable_subscribe, reachable_subscribe,
    reachable_new.
Defined.

End ActionFacts.

(** ** Event dispatch tree *)

Module EventfulFacts.
Import Eventful.

Section TreeFacts.
Context {MouseTouchEvent : Type}.
Implicit Types (n c : node MouseTouchEvent) (cs : list (node MouseTouchEvent)).

(** The defining equation of [dispatchEvent]. *)
Lemma dispatchEvent_unfold n name (event : MouseTouchEvent) other :
  dispatchEvent n name event other =
    let children :=
      dispatch_children (fun c => dispatchEvent c name event other)
        (_children n) in
    if children.1 then (true, children.2)
    else let own := onEvent n name event other in
         (own.1, children.2 ++ own.2).
Proof. destruct n; reflexivity. Qed.

(** The children loop on [before ++ c :: after]: when no child of [after]
    handles the event and [c] does, the loop has tried [after] from its
    last child to its first, then [c], and nothing of [before]. *)
Lemma dispatch_children_stops
    (dispatch : node MouseTouchEvent -> bool * list invocation)
    before c after :
  Forall (fun k => (dispatch k).1 = false) after ->
  (dispatch c).1 = true ->
  dispatch_children dispatch (before ++ c :: after) =
    (true, flat_map (fun k => (dispatch k).2) (rev after) ++ (dispatch c).2).
Proof.
  intros Hafter Hc.
  assert (dispatch_children dispatch (c :: after) =
    (true, flat_map (fun k => (dispatch k).2) (rev after) ++ (dispatch c).2))
    as Htail.
  { assert (dispatch_children dispatch after =
      (false, flat_map (fun k => (dispatch k).2) (rev after))) as Hrest.
    { clear Hc. induction Hafter as [|k after Hk _ IH]; [done|].
      simpl. rewrite IH. simpl. rewrite flat_map_app. simpl.
      rewrite app_nil_r. destruct (dispatch k) as [b tr]. simpl in *.
      by subst. }
    simpl. rewrite Hrest. simpl. destruct (dispatch c) as [b tr].
    simpl in *. by subst. }
  induction before as [|b before IH]; [done|].
  simpl. rewrite IH. done.
Qed.

(** When no child handles the event, the loop has tried them all, last
    to first. *)
Lemma dispatch_children_none
    (dispatch : node MouseTouchEvent -> bool * list invocation) cs :
  Forall (fun k => (dispatch k).1 = false) cs ->
  dispatch_children dispatch cs =
    (false, flat_map (fun k => (dispatch k).2) (rev cs)).
Proof.
  induction 1 as [|k cs Hk _ IH]; [done|].
  simpl. rewrite IH. simpl. rewrite flat_map_app. simpl.
  rewrite app_nil_r. destruct (dispatch k) as [b tr]. simpl in *. by subst.
Qed.

(** [onEvent] on a node that reports a hit and has a handler for [name]
    invokes that handler and returns its result. *)
Lemma onEvent_handler n name (event : MouseTouchEvent) other h :
  checkEventOn n event = true ->
  _callbacks n !! name = Some h ->
  onEvent n name event other = (h event other, [(ident n, name)]).
Proof. intros Hhit Hcb. unfold onEvent. rewrite Hcb, Hhit. done. Qed.

(** A node that reports a hit and whose handler for [name] consumes the
    event handles the event, whatever its children do. *)
Lemma dispatchEvent_consumes n name (event : MouseTouchEvent) other h :
  checkEventOn n event = true ->
  _callbacks n !! name = Some h -> h event other = true ->
  (dispatchEvent n name event other).1 = true.
Proof.
  intros Hhit Hcb Hh. rewrite dispatchEvent_unfold. cbv zeta.
  destruct (dispatch_children _ (_children n)) as [[|] tr]; [done|].
  simpl. unfold onEvent. rewrite Hcb, Hhit. done.
Qed.

End TreeFacts.

(** C7. Let [P] have the children [A; B], added in that order, both
    reporting a hit for the event and both with a handler for the dispatched
    name that consumes it. Then [dispatchEvent] on [P] reports handled and
    makes exactly the invocations of [B]'s dispatch: when [B] is a leaf,
    only [B]'s handler, once; never [A]'s handler and never [P]'s own. In
    general, for a node whose children are [before ++ c :: after] where [c]
    is the last child that handles the event, the children of [after] are
    tried from the last to the first, then [c], dispatch stops there
    (nothing of [before] is tried) and the node's own handler does not
    run. *)
Theorem dispatch_topmost_child_only {MouseTouchEvent : Type}
    (P A B : node MouseTouchEvent) (name : EventName)
    (event : MouseTouchEvent) (other : option Z)
    (hA hB : MouseTouchEventCallback (MouseTouchEvent := MouseTouchEvent)) :
  _children P = [A; B] ->
  checkEventOn A event = true -> checkEventOn B event = true ->
  _callbacks A !! name = Some hA -> hA event other = true ->
  _callbacks B !! name = Some hB -> hB event other = true ->
  dispatchEvent P name event other
    = (true, (dispatchEvent B name event other).2)
  /\ (_children B = [] ->
      dispatchEvent P name event other = (true, [(ident B, name)]))
  /\ (forall (n : node MouseTouchEvent) before c after,
        _children n = before ++ c :: after ->
        Forall (fun k => (dispatchEvent k name event other).1 = false) after ->
        (dispatchEvent c name event other).1 = true ->
        dispatchEvent n name event other =
          (true, flat_map (fun k => (dispatchEvent k name event other).2)
                          (rev after)
                 ++ (dispatchEvent c name event other).2)).
Proof.
  intros HP HhitA HhitB HcbA HhA HcbB HhB.
  assert (forall (n : node MouseTouchEvent) before c after,
        _children n = before ++ c :: after ->
        Forall (fun k => (dispatchEvent k name event other).1 = false) after ->
        (dispatchEvent c name event other).1 = true ->
        dispatchEvent n name event other =
          (true, flat_map (fun k => (dispatchEvent k name event other).2)
                          (rev after)
                 ++ (dispatchEvent c name event other).2)) as Hgen.
  { intros n before c after Hn Hafter Hc.
    rewrite (dispatchEvent_unfold n). cbv zeta. rewrite Hn.
    rewrite (dispatch_children_stops _ before c after Hafter Hc). done. }
  pose proof (dispatchEvent_consumes B name event other hB HhitB HcbB HhB) as HB.
  assert (dispatchEvent P name event other
            = (true, (dispatchEvent B name event other).2)) as HPB.
  { rewrite (Hgen P [A] B []); [done|done|constructor|done]. }
  split; [exact HPB|]. split; [|exact Hgen].
  intros Hleaf. rewrite HPB. f_equal.
  rewrite dispatchEvent_unfold. cbv zeta. rewrite Hleaf.
  rewrite (onEvent_handler B name event other hB HhitB HcbB).
  cbn [dispatch_children fst snd app]. done.
Qed.

(** Witness of C7: three nodes 0 ([P]), 1 ([A]) and 2 ([B]) built with
    [registerEvent] and [addChild]; the two children are leaves whose hit
    test always succeeds, and all three have a consuming handler for
    ["mouseClickEvent"]. *)
Lemma dispatch_topmost_child_only_witness :
  let h : MouseTouchEventCallback (MouseTouchEvent := unit) :=
    fun _ _ => true in
  let A := registerEvent "mouseClickEvent" h
             (Node 1 ∅ [] (Some (fun _ => true))) in
  let B := registerEvent "mouseClickEvent" h
             (Node 2 ∅ [] (Some (fun _ => true))) in
  let P := addChild B (addChild A
             (registerEvent "mouseClickEvent" h (Node 0 ∅ [] None))) in
  dispatchEvent P "mouseClickEvent" () None
    = (true, [(2%nat, "mouseClickEvent")]).
Proof.
  intros h A B P.
  refine (proj1 (proj2 (dispatch_topmost_child_only P A B "mouseClickEvent"
                          () None h h _ _ _ _ _ _ _)) _); reflexivity.
Defined.

End EventfulFacts.

(** ** Animation driver *)

Module AnimationFacts.
Import Animation.


(** The state invariant of the data model: while running, the current
    iteration is below the iteration count; while not running, no frame is
    scheduled. *)
Definition invariant (w : world) : Prop :=
  (_running (self w) = true ->
   _currentIterationCount (self w) < iterationCount (self w))
  /\ (_running (self w) = false -> frames w = []).

(** The states a driver reaches from construction by calls and host moves
    that a condition [allowed] accepts in the state they are made in. *)
Inductive reached (allowed : event -> world -> Prop) : world -> Prop :=
  | reached_new d n t0 : reached allowed (World (new d n) t0 [] [])
  | reached_exec e w :
      reached allowed w -> allowed e w -> reached allowed (exec e w).

(** [start()] is not called on an idle driver whose current iteration has
    reached the iteration count, and [setIterationCount] does not put the
    count of a running driver at or below its current iteration. Everything
    else is permitted. *)
Definition counts_respected (e : event) (w : world) : Prop :=
  match e with
  | Start =>
    _running (self w) = false ->
    _currentIterationCount (self w) < iterationCount (self w)
  | SetIterationCount n =>
    _running (self w) = true -> _currentIterationCount (self w) < n
  | _ => True
  end.

(** [stop()] is not called on a running driver. Everything else is
    permitted. *)
Definition stops_at_rest (e : event) (w : world) : Prop :=
  match e with
  | Stop => _running (self w) = false
  | _ => True
  end.

(** [allowed] holds at every step of the run of [es] from [w]. *)
Fixpoint permitted (allowed : event -> world -> Prop) (es : list event)
    (w : world) : Prop :=
  match es with
  | [] => True
  | e :: es' => allowed e w /\ permitted allowed es' (exec e w)
  end.

(** Events other than a call of [start()], and other than a frame firing. *)
Definition not_start (e : event) : bool :=
  match e with Start => false | _ => true end.

Definition not_fire (e : event) : bool :=
  match e with Fire => false | _ => true end.

(** The last part of C4 as the specification words it, for the frame the
    stopped run left pending: whatever calls are made and however much time
    passes ([pre], in which no frame fires) between [stop()] and that
    frame, the frame invokes nothing when it fires. *)
Definition stopped_run_silent (w : world) (pre : list event) : Prop :=
  forallb not_fire pre = true -> frames (stop w) <> [] ->
  calls (fire (run pre (stop w))) = calls (run pre (stop w)).

(** How many of the elapsed-time arguments equal [x]. *)
Definition occurrences (x : Z) (l : list Z) : nat :=
  length (filter (fun y => y = x) l).

Ltac unpack_driver w :=
  destruct w as [[dur cnt cbk cur rng tm] clk fs cs];
  cbn [self now frames calls duration iterationCount _doFrameCallback
       _currentIterationCount _running _time] in *.

Ltac unfold_driver :=
  cbv [fire step stop start _loop requestAnimationFrame doFrameCallback
       with_self set_running set_time set_currentIterationCount
       self now frames calls duration iterationCount _doFrameCallback
       _currentIterationCount _running _time negb] in *.

Ltac project_driver :=
  cbn [self now frames calls duration iterationCount _doFrameCallback
       _currentIterationCount _running _time] in *.

Lemma driver_run_app es1 es2 w : run (es1 ++ es2) w = run es2 (run es1 w).
Proof. unfold run. apply fold_left_app. Qed.

(** A frame that fires while the driver is not running does nothing but
    leave the queue. *)
Lemma fire_idle w :
  _running (self w) = false ->
  self (fire w) = self w /\ calls (fire w) = calls w /\ now (fire w) = now w.
Proof.
  intros Hr. unfold fire. destruct (frames w) as [|[] fs]; [done|].
  unfold step. simpl. rewrite Hr. done.
Qed.

Lemma host_events_idle es w :
  forallb host_event es = true ->
  _running (self w) = false ->
  self (run es w) = self w /\ calls (run es w) = calls w.
Proof.
  revert w. induction es as [|e es IH]; intros w Hes Hr; [done|].
  simpl in Hes. apply andb_prop in Hes as [He Hes].
  change (run (e :: es) w) with (run es (exec e w)).
  destruct e; try discriminate; simpl.
  - destruct (fire_idle w Hr) as (Hs & Hc & _).
    destruct (IH (fire w) Hes) as [Hs' Hc']; [by rewrite Hs|].
    by rewrite Hs', Hc', Hs, Hc.
  - apply (IH (tick d w) Hes). done.
Qed.

(** On an idle driver, anything but [start()] leaves it idle, invokes
    nothing and requests nothing: the queue only loses the frame that
    fires. *)
Lemma exec_idle e w :
  not_start e = true -> _running (self w) = false ->
  _running (self (exec e w)) = false
  /\ calls (exec e w) = calls w
  /\ exists k, frames (exec e w) = drop k (frames w).
Proof.
  intros He Hr. unpack_driver w. subst.
  destruct e; try discriminate; cbn [exec].
  - split; [done|]. split; [done|]. by exists 0%nat.
  - split; [done|]. split; [done|]. by exists 0%nat.
  - split; [done|]. split; [done|]. by exists 0%nat.
  - split; [done|]. split; [done|]. by exists 0%nat.
  - destruct fs as [|[] fs].
    + split; [done|]. split; [done|]. by exists 0%nat.
    + split; [done|]. split; [done|]. by exists 1%nat.
  - split; [done|]. split; [done|]. by exists 0%nat.
Qed.

Lemma run_idle es w :
  forallb not_start es = true -> _running (self w) = false ->
  _running (self (run es w)) = false
  /\ calls (run es w) = calls w
  /\ exists k, frames (run es w) = drop k (frames w).
Proof.
  revert w. induction es as [|e es IH]; intros w Hes Hr.
  - split; [done|]. split; [done|]. by exists 0%nat.
  - cbn [forallb] in Hes. apply andb_prop in Hes as [He Hes].
    change (run (e :: es) w) with (run es (exec e w)).
    destruct (exec_idle e w He Hr) as (Hr1 & Hc1 & k1 & Hf1).
    destruct (IH (exec e w) Hes Hr1) as (Hr2 & Hc2 & k2 & Hf2).
    split; [done|]. split; [congruence|].
    exists (k1 + k2)%nat. by rewrite Hf2, Hf1, drop_drop.
Qed.

(** C4, as the code has it. [stop()] invokes the registered frame callback
    exactly once, with the configured duration as elapsed time, if and only
    if the driver was running when it was called, and afterwards the
    running flag is false. From then on, as long as [start()] is not called
    again, whatever other calls are made, whatever frames fire and however
    much time passes, the callback is invoked no more, the driver stays
    idle and no frame is requested: the frames the stopped run left pending
    fire without effect. *)
Theorem stop_terminal_callback (w : world) (cb : CallbackRef) :
  _doFrameCallback (self w) = Some cb ->
  calls (stop w)
    = calls w ++ (if _running (self w) then [(cb, duration (self w))] else [])
  /\ _running (self (stop w)) = false
  /\ forall es, forallb not_start es = true ->
       calls (run es (stop w)) = calls (stop w)
       /\ _running (self (run es (stop w))) = false
       /\ exists k, frames (run es (stop w)) = drop k (frames (stop w)).
Proof.
  intros Hcb.
  assert (_running (self (stop w)) = false) as Hstopped by (by unpack_driver w).
  split; [|split; [done|]].
  - unpack_driver w. subst. unfold stop, doFrameCallback. simpl.
    destruct rng; simpl; [done|by rewrite app_nil_r].
  - intros es Hes.
    destruct (run_idle es (stop w) Hes Hstopped) as (Hr & Hc & Hk). done.
Qed.

(** Witness of C4 (amended): a driver with duration 100, started at time 0
    and stopped 40 ms later, after one frame; then a frame, a second
    [stop()], new settings and another frame. *)
Lemma stop_terminal_callback_witness :
  let w := run [Start; Tick 16; Fire; Tick 24] (fresh (Some 100) None 5%nat 0) in
  calls (stop w) = [(5%nat, 16); (5%nat, 100)]
  /\ calls (run [Tick 16; Fire; Stop; SetDuration 10; Tick 100; Fire] (stop w))
     = calls (stop w).
Proof.
  intros w.
  destruct (stop_terminal_callback w 5%nat eq_refl) as (Hcalls & _ & Hafter).
  split; [exact Hcalls|].
  exact (proj1 (Hafter [Tick 16; Fire; Stop; SetDuration 10; Tick 100; Fire]
                  eq_refl)).
Defined.

(** C4 as stated fails when [start()] is called again before the frame of
    the stopped run has fired. [stop()] cancels nothing, so that frame is
    still first in the queue, before the frame of the new run; when it
    fires it finds the driver running and invokes the callback, with the
    16 ms elapsed since the second [start()]. *)
Lemma stopped_run_frame_calls_after_restart :
  ~ stopped_run_silent (run [Start] (fresh (Some 100) None 5%nat 0))
      [Start; Tick 16]
  /\ frames (run [Start; Stop; Start; Tick 16] (fresh (Some 100) None 5%nat 0))
     = [Step; Step]
  /\ calls (run [Start; Stop; Start; Tick 16] (fresh (Some 100) None 5%nat 0))
     = [(5%nat, 100)]
  /\ calls (run [Start; Stop; Start; Tick 16; Fire]
              (fresh (Some 100) None 5%nat 0))
     = [(5%nat, 100); (5%nat, 16)].
Proof.
  split; [|by repeat split].
  intros H. specialize (H eq_refl ltac:(discriminate)).
  vm_compute in H. discriminate.
Qed.

(** *** The state invariant *)

Lemma reached_run allowed es w :
  reached allowed w -> permitted allowed es w -> reached allowed (run es w).
Proof.
  revert w. induction es as [|e es IH]; intros w Hw Hes; [done|].
  destruct Hes as [He Hes].
  change (run (e :: es) w) with (run es (exec e w)).
  apply IH; [|done]. by apply reached_exec.
Qed.

(** While the counts are respected, a running driver is below its iteration
    count. *)
Lemma counts_respected_below w :
  reached counts_respected w ->
  _running (self w) = true ->
  _currentIterationCount (self w) < iterationCount (self w).
Proof.
  induction 1 as [d n t0|e w Hw IH He]; [discriminate|].
  unpack_driver w. destruct e; cbn [exec counts_respected] in *;
    project_driver.
  - unfold start. project_driver. destruct rng; cbn [negb]; [done|].
    intros _. unfold_driver. by apply He.
  - unfold_driver. by destruct rng.
  - done.
  - done.
  - done.
  - unfold fire. project_driver. destruct fs as [|[] fs]; [done|].
    unfold step. project_driver. destruct rng; [|done].
    destruct (decide (clk - tm < dur)).
    { unfold_driver. destruct cbk; project_driver; intros _; by apply IH. }
    unfold_driver. destruct cbk;
      (destruct (decide (cur + 1 < cnt)); project_driver; [done|discriminate]).
  - done.
Qed.

(** While [stop()] is called at rest only, exactly one frame is pending
    when the driver is running and none when it is not. *)
Lemma stops_at_rest_queue w :
  reached stops_at_rest w ->
  (_running (self w) = true -> frames w = [Step])
  /\ (_running (self w) = false -> frames w = []).
Proof.
  induction 1 as [d n t0|e w Hw IH He]; [done|].
  unpack_driver w. destruct IH as [IHr IHi].
  destruct e; cbn [exec stops_at_rest] in *; project_driver.
  - unfold start. project_driver. destruct rng; cbn [negb]; [done|].
    unfold_driver. rewrite (IHi eq_refl). done.
  - subst. unfold_driver. done.
  - done.
  - done.
  - done.
  - unfold fire. project_driver. destruct rng.
    + rewrite (IHr eq_refl). unfold step. project_driver.
      destruct (decide (clk - tm < dur)).
      { unfold_driver. by destruct cbk. }
      unfold_driver. destruct cbk;
        (destruct (decide (cur + 1 < cnt)); project_driver; done).
    + rewrite (IHi eq_refl). done.
  - done.
Qed.

(** C5, as the code has it. Take any state a driver reaches from
    construction through calls of its methods, frames firing and time
    passing. If on the way [start()] was never called on an idle driver
    whose current iteration had reached the iteration count, and
    [setIterationCount] never put the count of a running driver at or below
    its current iteration, then whenever the driver is running,
    currentIteration < iterationCount. If on the way [stop()] was never
    called on a running driver, then whenever the driver is not running, no
    frame is scheduled on its behalf. *)
Theorem guarded_invariant (w : world) :
  (reached counts_respected w ->
   _running (self w) = true ->
   _currentIterationCount (self w) < iterationCount (self w))
  /\ (reached stops_at_rest w ->
      _running (self w) = false -> frames w = []).
Proof.
  split.
  - apply counts_respected_below.
  - intros Hw. by destruct (stops_at_rest_queue w Hw).
Qed.

(** Witness of C5 (amended). The first half after a [stop()] in mid-run, a
    new iteration count and a second [start()]; the second half after a
    one-iteration run has completed, was started again and has completed
    again under a smaller iteration count. *)
Lemma guarded_invariant_witness :
  (let w := run [Start; Tick 30; Stop; SetIterationCount 3; Start]
                (World (new (Some 100) (Some 2)) 0 [] []) in
   _running (self w) = true
   /\ _currentIterationCount (self w) < iterationCount (self w))
  /\ (let w := run [Start; Tick 100; Fire; Start; SetIterationCount 0;
                    Tick 100; Fire]
                   (World (new (Some 100) (Some 1)) 0 [] []) in
      _running (self w) = false /\ frames w = []).
Proof.
  split; intros w.
  - split; [reflexivity|].
    apply (proj1 (guarded_invariant w)); [|reflexivity].
    apply reached_run; [apply reached_new|].
    cbn; repeat split; intros; (discriminate || lia).
  - split; [reflexivity|].
    apply (proj2 (guarded_invariant w)); [|reflexivity].
    apply reached_run; [apply reached_new|].
    cbn; repeat split.
Defined.

(** C5 as stated fails at three inputs. A one-iteration driver that ran to
    completion and is started again is running with currentIteration =
    iterationCount = 1, the counter being never reset; a running driver
    whose iteration count is set to 0 is running with currentIteration =
    iterationCount = 0; and a driver stopped right after [start] is not
    running while the frame [start] requested is still scheduled. *)
Lemma invariant_fails_three_ways :
  ~ invariant (run [Start; Tick 100; Fire; Start]
                 (World (new (Some 100) (Some 1)) 0 [] []))
  /\ ~ invariant (run [Start; SetIterationCount 0]
                    (World (new (Some 100) (Some 1)) 0 [] []))
  /\ ~ invariant (run [Start; Stop] (World (new (Some 100) (Some 1)) 0 [] [])).
Proof.
  split; [|split]; intros [Hr Hi]; simpl in *.
  - specialize (Hr eq_refl). lia.
  - specialize (Hr eq_refl). lia.
  - specialize (Hi eq_refl). discriminate.
Qed.

(** *** Natural completion and the iteration count *)

Lemma occurrences_snoc x l y :
  occurrences x (l ++ [y])
    = (occurrences x l + (if decide (y = x) then 1 else 0))%nat.
Proof.
  unfold occurrences. rewrite filter_app, length_app. f_equal.
  destruct (decide (y = x)).
  - by rewrite filter_cons_True.
  - by rewrite filter_cons_False.
Qed.

(** The state of a driver configured with duration 100 and two iterations,
    once started: the terminal calls counted so far are the iterations
    completed; it is either running, one frame pending, in iteration 0 or 1,
    or idle with both iterations completed and the terminal call last. *)
Definition two_iterations (cb : CallbackRef) (w : world) : Prop :=
  duration (self w) = 100
  /\ iterationCount (self w) = 2
  /\ _doFrameCallback (self w) = Some cb
  /\ _time (self w) <= now w
  /\ Z.of_nat (occurrences 100 (elapsed w)) = _currentIterationCount (self w)
  /\ ((_running (self w) = true /\ frames w = [Step]
       /\ 0 <= _currentIterationCount (self w) < 2)
      \/ (_running (self w) = false /\ frames w = []
          /\ _currentIterationCount (self w) = 2
          /\ last (elapsed w) = Some 100)).

Lemma two_iterations_start cb t0 :
  two_iterations cb (start (fresh (Some 100) (Some 2) cb t0)).
Proof.
  unfold two_iterations, fresh, new, doFrame. unfold_driver.
  cbn [default]. repeat split; try done; try lia.
  left. repeat split; done.
Qed.

(** What a frame does when it fires on a running driver with a registered
    callback: a progress call, or the terminal call followed by the next
    iteration or by rest. *)
Lemma fire_running d n c cur t clk fs cs :
  fire (World (Make d n (Some c) cur true t) clk (Step :: fs) cs) =
    if decide (clk - t < d) then
      World (Make d n (Some c) cur true t) clk (fs ++ [Step])
            (cs ++ [(c, clk - t)])
    else if decide (cur + 1 < n) then
      World (Make d n (Some c) (cur + 1) true clk) clk (fs ++ [Step])
            (cs ++ [(c, d)])
    else
      World (Make d n (Some c) (cur + 1) false t) clk fs (cs ++ [(c, d)]).
Proof.
  unfold_driver.
  destruct (decide (clk - t < d)); [done|].
  by destruct (decide (cur + 1 < n)).
Qed.

Lemma two_iterations_fire cb w :
  two_iterations cb w -> two_iterations cb (fire w).
Proof.
  intros (Hd & Hn & Hcb & Ht & Hocc & Hphase). unpack_driver w. subst.
  destruct Hphase as [(-> & -> & Hcur)|(-> & -> & -> & Hlast)].
  - rewrite fire_running.
    destruct (decide (clk - tm < 100)) as [Hlt|Hge];
      [|destruct (decide (cur + 1 < 2)) as [Hnext|Hlast]];
      unfold two_iterations, elapsed in *; project_driver;
      rewrite map_app; cbn [map snd]; rewrite occurrences_snoc.
    + destruct (decide (clk - tm = 100)); [lia|].
      repeat split; try done; try lia.
      left. repeat split; lia.
    + destruct (decide (100 = 100)); [|done].
      repeat split; try done; try lia.
      left. repeat split; lia.
    + destruct (decide (100 = 100)); [|done].
      repeat split; try done; try lia.
      right. repeat split; try lia. by rewrite last_snoc.
  - unfold two_iterations, fire. project_driver. repeat split; try done.
    right. done.
Qed.

Lemma two_iterations_tick cb d w :
  two_iterations cb w -> two_iterations cb (tick d w).
Proof.
  intros (Hd & Hn & Hcb & Ht & Hocc & Hphase). unpack_driver w.
  unfold two_iterations, tick. project_driver. repeat split; try done. lia.
Qed.

Lemma two_iterations_host cb es w :
  forallb host_event es = true ->
  two_iterations cb w -> two_iterations cb (run es w).
Proof.
  revert w. induction es as [|e es IH]; intros w Hes Hw; [done|].
  simpl in Hes. apply andb_prop in Hes as [He Hes].
  change (run (e :: es) w) with (run es (exec e w)).
  apply IH; [done|]. destruct e; try discriminate; simpl.
  - by apply two_iterations_fire.
  - by apply two_iterations_tick.
Qed.

(** Once 100 ms have passed, the next frame completes the iteration. *)
Lemma two_iterations_progress cb w :
  two_iterations cb w -> _running (self w) = true ->
  _currentIterationCount (self (run [Tick 100; Fire] w))
    = _currentIterationCount (self w) + 1.
Proof.
  intros (Hd & Hn & Hcb & Ht & Hocc & Hphase) Hr. unpack_driver w. subst.
  destruct Hphase as [(_ & -> & Hcur)|(? & _)]; [|done].
  unfold run. cbn [fold_left exec]. unfold tick. project_driver.
  rewrite fire_running.
  destruct (decide (_ < 100)); [lia|].
  by destruct (decide (cur + 1 < 2)).
Qed.

Lemma two_iterations_settles cb w :
  two_iterations cb w ->
  _running (self (run [Tick 100; Fire; Tick 100; Fire] w)) = false.
Proof.
  intros Hw.
  assert (forall v, two_iterations cb v -> _running (self v) = true ->
            _currentIterationCount (self v) = 1 ->
            _running (self (run [Tick 100; Fire] v)) = false) as Hlast.
  { intros v Hv Hr Hc.
    pose proof (two_iterations_progress cb v Hv Hr) as Hp.
    pose proof (two_iterations_host cb [Tick 100; Fire] v eq_refl Hv)
      as (_ & _ & _ & _ & _ & [(_ & _ & Hc')|(Hr' & _)]); [lia|done]. }
  assert (forall v, _running (self v) = false ->
            _running (self (run [Tick 100; Fire] v)) = false) as Hidle.
  { intros v Hr.
    destruct (host_events_idle [Tick 100; Fire] v eq_refl Hr) as [Hs _].
    by rewrite Hs. }
  change [Tick 100; Fire; Tick 100; Fire]
    with ([Tick 100; Fire] ++ [Tick 100; Fire]).
  rewrite driver_run_app.
  pose proof (two_iterations_host cb [Tick 100; Fire] w eq_refl Hw) as Hw'.
  destruct (_running (self w)) eqn:Hr.
  - pose proof (two_iterations_progress cb w Hw Hr) as Hp.
    destruct (_running (self (run [Tick 100; Fire] w))) eqn:Hr'.
    + apply Hlast; [done|done|].
      destruct Hw as (_ & _ & _ & _ & _ & [(_ & _ & Hc)|(? & _)]); [|congruence].
      destruct Hw' as (_ & _ & _ & _ & _ & [(_ & _ & Hc')|(? & _)]);
        [lia|congruence].
    + by apply Hidle.
  - apply Hidle. by apply Hidle.
Qed.

(** C6. Started with duration 100 and iteration count 2, the driver makes
    one frame-callback call with elapsed = 100 per completed iteration, as
    the last call of that iteration; whenever it has settled idle there were
    exactly two of them, the last call being one; and it does settle once
    frames fire after 100 ms twice. When a frame finds an iteration
    complete (elapsed >= duration) it makes the terminal call and counts the
    iteration, and the driver re-enters running at once, with the current
    time as start timestamp and a new frame requested, if
    currentIteration + 1 < iterationCount; otherwise it stays idle. *)
Theorem two_iterations_complete (cb : CallbackRef) (t0 : Z) (es : list event) :
  forallb host_event es = true ->
  let w := run es (start (fresh (Some 100) (Some 2) cb t0)) in
  Z.of_nat (occurrences 100 (elapsed w)) = _currentIterationCount (self w)
  /\ (_running (self w) = false ->
      occurrences 100 (elapsed w) = 2%nat
      /\ last (elapsed w) = Some 100
      /\ frames w = [])
  /\ _running (self (run [Tick 100; Fire; Tick 100; Fire] w)) = false
  /\ (forall (v : world) (c : CallbackRef) (fs : list frame),
        _running (self v) = true ->
        _doFrameCallback (self v) = Some c ->
        frames v = Step :: fs ->
        duration (self v) <= now v - _time (self v) ->
        calls (fire v) = calls v ++ [(c, duration (self v))]
        /\ _currentIterationCount (self (fire v))
             = _currentIterationCount (self v) + 1
        /\ (_currentIterationCount (self v) + 1 < iterationCount (self v) ->
            _running (self (fire v)) = true
            /\ _time (self (fire v)) = now v
            /\ frames (fire v) = fs ++ [Step])
        /\ (~ _currentIterationCount (self v) + 1 < iterationCount (self v) ->
            _running (self (fire v)) = false
            /\ frames (fire v) = fs)).
Proof.
  intros Hes w.
  pose proof (two_iterations_host cb es _ Hes (two_iterations_start cb t0)) as Hw.
  fold w in Hw. split; [|split; [|split]].
  - by destruct Hw as (_ & _ & _ & _ & Hocc & _).
  - intros Hr.
    destruct Hw as (_ & _ & _ & _ & Hocc & [(? & _)|(_ & Hf & Hc & Hlast)]);
      [congruence|].
    repeat split; [lia|done|done].
  - by apply (two_iterations_settles cb).
  - intros v c rest Hr Hcb Hf Hge. unpack_driver v. subst. rewrite fire_running.
    destruct (decide (clk - tm < dur)); [lia|].
    destruct (decide (cur + 1 < cnt)); project_driver; repeat split; try done.
Qed.

(** Witness of C6: frames every 40 ms. *)
Lemma two_iterations_complete_witness :
  let w := run [Tick 40; Fire; Tick 40; Fire; Tick 40; Fire;
                Tick 40; Fire; Tick 40; Fire; Tick 40; Fire]
               (start (fresh (Some 100) (Some 2) 5%nat 0)) in
  elapsed w = [40; 80; 100; 40; 80; 100]
  /\ _running (self w) = false
  /\ occurrences 100 (elapsed w) = 2%nat.
Proof.
  intros w. split; [reflexivity|]. split; [reflexivity|].
  exact (proj1 (proj1 (proj2 (two_iterations_complete 5%nat 0
    [Tick 40; Fire; Tick 40; Fire; Tick 40; Fire;
     Tick 40; Fire; Tick 40; Fire; Tick 40; Fire] eq_refl)) eq_refl)).
Defined.

End AnimationFacts.

(** ** Surface manager *)

Module CanvasFacts.
Import Number Canvas.

(** At most one frame request is in flight, and [_requestAnimationId] is
    its handle; with none in flight the field holds the default id. *)
Definition single_frame (w : world) : Prop :=
  (_requestAnimationId (self w) = DEFAULT_REQUEST_ID /\ frames w = [])
  \/ (exists h f, _requestAnimationId (self w) = Z.pos h /\ frames w = [(h, f)]).

(** The coalescing rule as the specification words it, for the triggers
    [es] arriving at the canvas [w0] before the frame fires: one paint, one
    reconciliation, and the fired frame has applied the latest pending pixel
    dimensions. *)
Definition coalesced (w0 : world) (es : list event) : Prop :=
  forallb trigger es = true -> es <> [] ->
  forall w, run (es ++ [Fire]) w0 = Normal w ->
    paints (log w) = S (paints (log w0))
    /\ reconciliations (log w) = S (reconciliations (log w0))
    /\ _pixelWidth (self w) = _nextPixelWidth (self w)
    /\ _pixelHeight (self w) = _nextPixelHeight (self w).

(** The teardown rule as the specification words it: after [destroy()] on a
    canvas whose probe is pending, whatever happens next ([es]), no resize
    observer and no media-query listener is installed. *)
Definition no_observer_after_destroy (w0 : world) (es : list event) : Prop :=
  forall w, run (Destroy :: es) w0 = Normal w ->
    installed (_resizeObserver (self w)) = false
    /\ installed (_mediaQueryList (self w)) = false.

Ltac project :=
  cbn [self elem devicePixelRatio probing frames next_handle log
       _resizeObserver _mediaQueryList _supportedDevicePixelContentBox
       _width _height _pixelWidth _pixelHeight _nextPixelWidth
       _nextPixelHeight _requestAnimationId
       clientWidth clientHeight width height] in *.

Ltac unpack w :=
  destruct w as [[ro mq sup wd ht pwd pht nwd nht rid] [cw ch ew eh]
                   ratio pr fs nx lg];
  project.

Ltac unfold_canvas :=
  cbv [update _mediaQueryListener resizeObserverCallback _resetPixelRatio
       _executeListener frame_body reconcile probe_then destroy isValid
       unregister with_self emit set_next set_requestAnimationId
       DEFAULT_REQUEST_ID negb
       self elem devicePixelRatio probing frames next_handle log
       _resizeObserver _mediaQueryList _supportedDevicePixelContentBox
       _width _height _pixelWidth _pixelHeight _nextPixelWidth
       _nextPixelHeight _requestAnimationId
       clientWidth clientHeight width height] in *.

Lemma canvas_run_app es1 es2 w :
  run (es1 ++ es2) w =
    match run es1 w with Normal w' => run es2 w' | Throw => Throw end.
Proof.
  revert w. induction es1 as [|e es1 IH]; intros w; simpl; [done|].
  destruct (exec e w); [apply IH|done].
Qed.

Lemma paints_snoc l e :
  paints (l ++ [e]) = (paints l + (if is_paint e then 1 else 0))%nat.
Proof.
  unfold paints. rewrite filter_app, length_app. f_equal.
  by destruct e.
Qed.

Lemma reconciliations_snoc l e :
  reconciliations (l ++ [e])
    = (reconciliations l + (if is_resize e then 1 else 0))%nat.
Proof.
  unfold reconciliations. rewrite filter_app, length_app. f_equal.
  by destruct e.
Qed.

Lemma paints_app l l' : paints (l ++ l') = (paints l + paints l')%nat.
Proof. unfold paints. by rewrite filter_app, length_app. Qed.

Lemma reconciliations_app l l' :
  reconciliations (l ++ l') = (reconciliations l + reconciliations l')%nat.
Proof. unfold reconciliations. by rewrite filter_app, length_app. Qed.

(** A request made while one is pending is absorbed. *)
Lemma _executeListener_absorbed f w :
  _requestAnimationId (self w) <> DEFAULT_REQUEST_ID -> _executeListener f w = w.
Proof.
  intros Hne. unfold _executeListener.
  destruct (decide (_requestAnimationId (self w) = DEFAULT_REQUEST_ID)); done.
Qed.

(** A request made while none is pending enters the queue under a new
    handle. *)
Lemma _executeListener_idle f ro mq sup wd ht pwd pht nwd nht e r pr fs nx lg :
  _executeListener f
    (World (Make ro mq sup wd ht pwd pht nwd nht (-1)) e r pr fs nx lg)
  = World (Make ro mq sup wd ht pwd pht nwd nht (Z.pos nx)) e r pr
          (fs ++ [(nx, f)]) (Pos.succ nx) lg.
Proof.
  unfold _executeListener, DEFAULT_REQUEST_ID, set_requestAnimationId. project.
  by destruct (decide (-1 = -1)).
Qed.

(** The frame that carries the reconciliation, when it runs: the buffer is
    cleared at the old logical size, the logical size becomes the size of
    the CSS box, the pending pixel size becomes the recorded one and, as
    far as the element takes it, the buffer's; the context is rescaled, the
    listener paints, and the request id is back at its default. *)
Lemma frame_body_reset ro mq sup wd ht pwd pht nwd nht rid cw ch ew eh r pr fs nx lg :
  frame_body (Some ResetPixelRatio)
    (World (Make ro mq sup wd ht pwd pht nwd nht rid) (Element cw ch ew eh)
           r pr fs nx lg)
  = World (Make ro mq sup cw ch nwd nht nwd nht DEFAULT_REQUEST_ID)
          (Element cw ch (dimension DEFAULT_WIDTH nwd)
                   (dimension DEFAULT_HEIGHT nht)) r pr fs nx
          (lg ++ [ClearRect wd ht;
                  Resize (dimension DEFAULT_WIDTH nwd)
                         (dimension DEFAULT_HEIGHT nht);
                  Scale nwd cw nht ch;
                  Paint (dimension DEFAULT_WIDTH nwd)
                        (dimension DEFAULT_HEIGHT nht)]).
Proof. unfold_canvas. by rewrite <- !app_assoc. Qed.

(** The frame of a plain repaint request leaves the sizes alone. *)
Lemma frame_body_plain ro mq sup wd ht pwd pht nwd nht rid e r pr fs nx lg :
  frame_body None
    (World (Make ro mq sup wd ht pwd pht nwd nht rid) e r pr fs nx lg)
  = World (Make ro mq sup wd ht pwd pht nwd nht DEFAULT_REQUEST_ID) e r pr fs nx
          (lg ++ [ClearRect wd ht; Paint (width e) (height e)]).
Proof. destruct e. unfold_canvas. by rewrite <- !app_assoc. Qed.

(** [update] with a size that differs from the recorded one, on the
    fallback path: the CSS box follows, the pending pixel size is recomputed
    from the density, and a reconciliation is requested. *)
Lemma update_changed x y ro mq wd ht pwd pht nwd nht rid cw ch ew eh r pr fs nx lg :
  wd <> x \/ ht <> y ->
  update x y
    (World (Make ro mq false wd ht pwd pht nwd nht rid) (Element cw ch ew eh)
           r pr fs nx lg)
  = _executeListener (Some ResetPixelRatio)
      (World (Make ro mq false wd ht pwd pht (scaled x r) (scaled y r) rid)
             (Element (style_length cw x) (style_length ch y) ew eh)
             r pr fs nx lg).
Proof.
  intros H. unfold update. project.
  by destruct (decide (wd <> x \/ ht <> y)).
Qed.

(** [update] with the recorded size: a plain repaint request. *)
Lemma update_same x y ro mq sup pwd pht nwd nht rid e r pr fs nx lg :
  update x y (World (Make ro mq sup x y pwd pht nwd nht rid) e r pr fs nx lg)
  = _executeListener None
      (World (Make ro mq sup x y pwd pht nwd nht rid) e r pr fs nx lg).
Proof.
  unfold update. project.
  destruct (decide (x <> x \/ y <> y)) as [[?|?]|]; done.
Qed.

Lemma _executeListener_single f w :
  single_frame w -> single_frame (_executeListener f w).
Proof.
  intros [[Hid Hfs]|(h & g & Hid & Hfs)].
  - unfold _executeListener. rewrite Hid, Hfs.
    destruct (decide (DEFAULT_REQUEST_ID = DEFAULT_REQUEST_ID)); [|done].
    right. by exists (next_handle w), f.
  - rewrite _executeListener_absorbed; [|by rewrite Hid].
    right. by exists h, g.
Qed.

(** Every step keeps at most one frame in flight. *)
Lemma exec_single e w w' :
  single_frame w -> exec e w = Normal w' -> single_frame w'.
Proof.
  intros Hw He. destruct e as [x y| |b|r|size|]; simpl in He.
  - injection He as <-. unfold update.
    destruct (decide (_width (self w) <> x \/ _height (self w) <> y)).
    + destruct (negb _); [apply _executeListener_single|]; by unpack w.
    + by apply _executeListener_single.
  - unfold destroy in He.
    destruct (isValid (_resizeObserver (self w))), (_resizeObserver (self w));
      simpl in He; try discriminate;
      destruct (isValid (_mediaQueryList (self w))), (_mediaQueryList (self w));
      simpl in He; try discriminate; injection He as <-; by unpack w.
  - destruct (probing w); injection He as <-; [|done].
    unfold probe_then. destruct b; by unpack w.
  - destruct (_mediaQueryList (self w)) as [[[|]]|] eqn:E;
      injection He as <-; try by unpack w.
    unfold _mediaQueryListener, _resetPixelRatio.
    apply _executeListener_single. by unpack w.
  - destruct (_resizeObserver (self w)) as [[[|]]|]; injection He as <-;
      try done.
    unfold resizeObserverCallback. destruct size as [[a b]|]; [|done].
    destruct (_ || _); [apply _executeListener_single|]; by unpack w.
  - destruct (frames w) as [|[h f] fs] eqn:E; injection He as <-; [done|].
    destruct Hw as [[_ Hfs]|(h' & g & Hid & Hfs)]; [congruence|].
    rewrite E in Hfs. injection Hfs as -> -> ->.
    left. unfold frame_body. destruct g as [[]|]; by unpack w.
Qed.

Lemma run_single es w w' :
  single_frame w -> run es w = Normal w' -> single_frame w'.
Proof.
  revert w. induction es as [|e es IH]; intros w Hw Hrun; simpl in Hrun.
  - by injection Hrun as <-.
  - destruct (exec e w) as [w1|] eqn:He; [|done].
    eapply IH; [|done]. by eapply exec_single.
Qed.

(** While a frame is pending, a trigger requests nothing and invokes
    nothing: queue, handle and log stay as they are. *)
Lemma trigger_absorbed e w h f :
  trigger e = true ->
  _requestAnimationId (self w) = Z.pos h -> frames w = [(h, f)] ->
  exists w', exec e w = Normal w'
    /\ _requestAnimationId (self w') = Z.pos h
    /\ frames w' = [(h, f)]
    /\ log w' = log w.
Proof.
  intros He Hid Hfs. destruct e as [x y| |b|r|size|]; try discriminate; simpl.
  - eexists. split; [done|]. unfold update.
    destruct (decide (_width (self w) <> x \/ _height (self w) <> y)).
    + destruct (negb _).
      * unfold _resetPixelRatio. rewrite _executeListener_absorbed;
          unpack w; subst; done.
      * by unpack w.
    + rewrite _executeListener_absorbed; [done|by rewrite Hid].
  - destruct (_mediaQueryList (self w)) as [[[|]]|] eqn:E;
      (eexists; split; [done|]); try by unpack w.
    unfold _mediaQueryListener, _resetPixelRatio.
    rewrite _executeListener_absorbed; unpack w; subst; done.
  - destruct (_resizeObserver (self w)) as [[[|]]|];
      (eexists; split; [done|]); try done.
    unfold resizeObserverCallback. destruct size as [[a b]|]; [|done].
    destruct (_ || _); [|by unpack w].
    unfold _resetPixelRatio. rewrite _executeListener_absorbed;
      unpack w; subst; done.
Qed.

Lemma triggers_absorbed es w h f :
  forallb trigger es = true ->
  _requestAnimationId (self w) = Z.pos h -> frames w = [(h, f)] ->
  exists w', run es w = Normal w'
    /\ _requestAnimationId (self w') = Z.pos h
    /\ frames w' = [(h, f)]
    /\ log w' = log w.
Proof.
  revert w. induction es as [|e es IH]; intros w Hes Hid Hfs; simpl.
  - by exists w.
  - simpl in Hes. apply andb_prop in Hes as [He Hes].
    destruct (trigger_absorbed e w h f He Hid Hfs) as (w1 & -> & Hid1 & Hfs1 & Hl1).
    destruct (IH w1 Hes Hid1 Hfs1) as (w' & Hrun & ? & ? & Hl).
    exists w'. repeat split; try done. by rewrite Hl.
Qed.

(** The frame, when it fires: one paint; and a frame that carries the
    reconciliation applies the pending pixel dimensions, once. *)
Lemma fire_pending w h f :
  frames w = [(h, f)] ->
  exists w', exec Fire w = Normal w'
    /\ frames w' = []
    /\ _requestAnimationId (self w') = DEFAULT_REQUEST_ID
    /\ paints (log w') = S (paints (log w))
    /\ (f = Some ResetPixelRatio ->
        log w' = log w ++ [ClearRect (_width (self w)) (_height (self w));
                           Resize (dimension DEFAULT_WIDTH (_nextPixelWidth (self w)))
                                  (dimension DEFAULT_HEIGHT (_nextPixelHeight (self w)));
                           Scale (_nextPixelWidth (self w)) (clientWidth (elem w))
                                 (_nextPixelHeight (self w)) (clientHeight (elem w));
                           Paint (dimension DEFAULT_WIDTH (_nextPixelWidth (self w)))
                                 (dimension DEFAULT_HEIGHT (_nextPixelHeight (self w)))]
        /\ reconciliations (log w') = S (reconciliations (log w))
        /\ _pixelWidth (self w') = _nextPixelWidth (self w)
        /\ _pixelHeight (self w') = _nextPixelHeight (self w)
        /\ _nextPixelWidth (self w') = _nextPixelWidth (self w)
        /\ _nextPixelHeight (self w') = _nextPixelHeight (self w)
        /\ _width (self w') = clientWidth (elem w)
        /\ _height (self w') = clientHeight (elem w)).
Proof.
  intros Hfs. simpl. rewrite Hfs. eexists. split; [done|].
  unpack w. subst. destruct f as [[]|].
  - rewrite frame_body_reset. project.
    split; [done|]. split; [done|]. split.
    { rewrite paints_app. change (paints [_; _; _; _]) with 1%nat. lia. }
    intros _. split; [done|]. split; [|done].
    rewrite reconciliations_app.
    change (reconciliations [_; _; _; _]) with 1%nat. lia.
  - rewrite frame_body_plain. project.
    split; [done|]. split; [done|]. split; [|done].
    rewrite paints_app. change (paints [_; _]) with 1%nat. lia.
Qed.

Lemma style_length_valid c w : 0 <= w -> style_length c w = w.
Proof. intros H. unfold style_length. by destruct (decide (0 <= w)). Qed.

(** Runs a list of concrete events by the equations above. *)
Ltac drive :=
  unfold new, DEFAULT_REQUEST_ID;
  repeat (cbn [run exec app]; project;
          first [ rewrite update_same
                | rewrite update_changed by lia
                | rewrite _executeListener_idle
                | rewrite _executeListener_absorbed by (project; discriminate)
                | rewrite frame_body_plain
                | rewrite frame_body_reset; unfold DEFAULT_REQUEST_ID
                | rewrite !style_length_valid by lia ]).

(** C2: the code at the failing input. On a new canvas, whatever its CSS
    box and the display density, [update(0, 0)] (the recorded size: a plain
    repaint request) followed by [update(100, 50)] before the frame fires
    gives one paint but no reconciliation: the frame clears, paints the
    untouched default buffer and leaves the pending pixel size unapplied,
    the logical size at 0 by 0 and no further frame requested, although the
    CSS box is 100 by 50 by then. [_executeListener] keeps the closure of
    the request that scheduled the frame and drops the one of the absorbed
    request. [update(100, 50)] alone does reconcile, and so does the
    sibling sequence of two size-changing calls. The same loss happens on a
    canvas that was sized before. *)
Theorem absorbed_resize_is_dropped (cw ch : Z) (r : float) :
  ~ coalesced (new cw ch r) [Update 0 0; Update 100 50]
  /\ (exists w,
        run [Update 0 0; Update 100 50; Fire] (new cw ch r) = Normal w
        /\ log w = [ClearRect 0 0; Paint DEFAULT_WIDTH DEFAULT_HEIGHT]
        /\ reconciliations (log w) = 0%nat
        /\ _nextPixelWidth (self w) = scaled 100 r
        /\ _nextPixelHeight (self w) = scaled 50 r
        /\ _pixelWidth (self w) = Int 0 /\ _pixelHeight (self w) = Int 0
        /\ _width (self w) = 0 /\ _height (self w) = 0
        /\ clientWidth (elem w) = 100 /\ clientHeight (elem w) = 50
        /\ width (elem w) = DEFAULT_WIDTH /\ height (elem w) = DEFAULT_HEIGHT
        /\ frames w = [])
  /\ (exists w,
        run [Update 100 50; Fire] (new cw ch r) = Normal w
        /\ reconciliations (log w) = 1%nat
        /\ _pixelWidth (self w) = scaled 100 r
        /\ _pixelHeight (self w) = scaled 50 r
        /\ _width (self w) = 100 /\ _height (self w) = 50)
  /\ (exists w,
        run [Update 20 10; Update 100 50; Fire] (new cw ch r) = Normal w
        /\ reconciliations (log w) = 1%nat
        /\ _pixelWidth (self w) = scaled 100 r
        /\ _pixelHeight (self w) = scaled 50 r
        /\ _width (self w) = 100 /\ _height (self w) = 50)
  /\ (exists w,
        run [Update 100 50; Fire; Update 100 50; Update 200 80; Fire]
            (new cw ch r) = Normal w
        /\ paints (log w) = 2%nat /\ reconciliations (log w) = 1%nat
        /\ _pixelWidth (self w) = scaled 100 r
        /\ _nextPixelWidth (self w) = scaled 200 r
        /\ _width (self w) = 100 /\ clientWidth (elem w) = 200).
Proof.
  assert (exists w,
        run [Update 0 0; Update 100 50; Fire] (new cw ch r) = Normal w
        /\ log w = [ClearRect 0 0; Paint DEFAULT_WIDTH DEFAULT_HEIGHT]
        /\ reconciliations (log w) = 0%nat
        /\ _nextPixelWidth (self w) = scaled 100 r
        /\ _nextPixelHeight (self w) = scaled 50 r
        /\ _pixelWidth (self w) = Int 0 /\ _pixelHeight (self w) = Int 0
        /\ _width (self w) = 0 /\ _height (self w) = 0
        /\ clientWidth (elem w) = 100 /\ clientHeight (elem w) = 50
        /\ width (elem w) = DEFAULT_WIDTH /\ height (elem w) = DEFAULT_HEIGHT
        /\ frames w = []) as Hdrop.
  { eexists. split; [drive; reflexivity|]. project. cbn [app]. repeat split. }
  split; [|split; [done|split; [|split]]].
  - intros H. destruct Hdrop as (w & Hrun & _ & Hrec & _).
    destruct (H eq_refl ltac:(discriminate) w Hrun) as (_ & Hrec' & _).
    rewrite Hrec in Hrec'. discriminate.
  - eexists. split; [drive; reflexivity|]. project. cbn [app]. repeat split.
  - eexists. split; [drive; reflexivity|]. project. cbn [app]. repeat split.
  - eexists. split; [drive; reflexivity|]. project. cbn [app]. repeat split.
Qed.

(** C3: the code at the failing input. On a new canvas [destroy()] does not
    throw and changes nothing. The constructor's continuation checks no
    liveness condition: when the probe settles after [destroy()], it
    installs the resize observer (probe true) or the media-query listener
    (probe false), which nothing unregisters any more. Had the probe
    settled before [destroy()], nothing would be left registered. *)
Theorem observer_installed_after_destroy (cw ch : Z) (r : float) (result : bool) :
  destroy (new cw ch r) = Normal (new cw ch r)
  /\ ~ no_observer_after_destroy (new cw ch r) [ProbeSettles result]
  /\ (exists w,
        run [Destroy; ProbeSettles result] (new cw ch r) = Normal w
        /\ installed (_resizeObserver (self w)) = result
        /\ installed (_mediaQueryList (self w)) = negb result)
  /\ (exists w,
        run [ProbeSettles result; Destroy] (new cw ch r) = Normal w
        /\ installed (_resizeObserver (self w)) = false
        /\ installed (_mediaQueryList (self w)) = false).
Proof.
  assert (exists w,
        run [Destroy; ProbeSettles result] (new cw ch r) = Normal w
        /\ installed (_resizeObserver (self w)) = result
        /\ installed (_mediaQueryList (self w)) = negb result) as Hleak.
  { eexists. split; [reflexivity|].
    unfold probe_then, new. project. by destruct result. }
  split; [done|]. split; [|split; [done|]].
  - intros H. destruct Hleak as (w & Hrun & Hro & Hmq).
    destruct (H w Hrun) as [Hro' Hmq'].
    destruct result; cbn [negb] in Hmq; congruence.
  - unfold new. cbn [run exec]. project. unfold probe_then. project.
    destruct result; (eexists; split; [reflexivity|]); done.
Qed.

End CanvasFacts.


(** ** More on [binarySearchNearest] *)

Module UtilsExtra.
Import Utils.

Section Search.
Context {T : Type} (valueKey : T -> Z).

(** The index returned does not depend on the reads recorded so far. *)
Lemma result_trace_irrelevant (dataList : list T) (targetValue : Z) :
  forall fuel left right tr tr',
    result (search_loop valueKey fuel dataList targetValue left right tr)
    = result (search_loop valueKey fuel dataList targetValue left right tr').
Proof.
  induction fuel as [|fuel IH]; intros left right tr tr'; simpl.
  - by destruct (decide (left = right)).
  - destruct (decide (left = right)); [done|]. unfold read_key.
    destruct (at_index dataList ((right + left) `div` 2)); [|done].
    destruct (at_index dataList left); [|done].
    destruct (decide _); [done|].
    destruct (at_index dataList right); [|done].
    repeat (destruct (decide _); [done|]). apply IH.
Qed.

Lemma key_at_in_bounds (dataList : list T) (i : Z) :
  in_bounds dataList i -> exists k, key_at valueKey dataList i = Some k.
Proof.
  intros Hi. unfold key_at.
  destruct (UtilsFacts.at_index_in_bounds dataList i Hi) as [d ->]. by eexists.
Qed.

Lemma key_at_Some_in_bounds (dataList : list T) (i k : Z) :
  key_at valueKey dataList i = Some k -> in_bounds dataList i.
Proof.
  unfold key_at, at_index, in_bounds. destruct (decide (0 <= i)); [|done].
  destruct (dataList !! Z.to_nat i) eqn:E; [|done]. intros _.
  apply lookup_lt_Some in E. lia.
Qed.

Lemma ascending_keys (dataList : list T) (i j ki kj : Z) :
  ascending valueKey dataList -> i <= j ->
  key_at valueKey dataList i = Some ki -> key_at valueKey dataList j = Some kj ->
  ki <= kj.
Proof.
  unfold key_at, at_index. intros Hasc Hij Hi Hj.
  destruct (decide (0 <= i)); [|done]. destruct (decide (0 <= j)); [|done].
  destruct (dataList !! Z.to_nat i) as [x|] eqn:Ex; [|done].
  destruct (dataList !! Z.to_nat j) as [y|] eqn:Ey; [|done].
  simpl in Hi, Hj. simplify_eq.
  apply (Hasc (Z.to_nat i) (Z.to_nat j)); [lia|done|done].
Qed.

Lemma midIndex_halves (left right : Z) :
  2 * ((right + left) `div` 2) <= right + left < 2 * ((right + left) `div` 2) + 2.
Proof.
  pose proof (Z.div_mod (right + left) 2 ltac:(lia)).
  pose proof (Z.mod_pos_bound (right + left) 2 ltac:(lia)). lia.
Qed.

(** One iteration of the loop on a window inside the array, as a function
    of the three keys it reads. *)
Lemma search_loop_step (dataList : list T) (targetValue : Z)
    (fuel : nat) (left right : Z) (tr : list Z) :
  0 <= left -> left < right -> right < Z.of_nat (length dataList) ->
  exists leftValue midValue rightValue,
    key_at valueKey dataList left = Some leftValue
    /\ key_at valueKey dataList ((right + left) `div` 2) = Some midValue
    /\ key_at valueKey dataList right = Some rightValue
    /\ result (search_loop valueKey (S fuel) dataList targetValue left right tr)
       = if decide (targetValue = leftValue) then Returned left
         else if decide (targetValue = rightValue) then Returned right
         else if decide (targetValue = midValue)
              then Returned ((right + left) `div` 2)
         else if decide (right - left <= 2)
              then Returned (if decide (targetValue > midValue)
                             then (right + left) `div` 2 else left)
         else result (search_loop valueKey fuel dataList targetValue
                        (if decide (targetValue > midValue)
                         then (right + left) `div` 2 else left)
                        (if decide (targetValue > midValue)
                         then right else (right + left) `div` 2) []).
Proof.
  intros Hl Hlt Hr.
  pose proof (UtilsFacts.midIndex_between left right Hlt) as Hmid.
  set (midIndex := (right + left) `div` 2) in *.
  destruct (UtilsFacts.at_index_in_bounds dataList midIndex) as [dm Hm];
    [unfold in_bounds; lia|].
  destruct (UtilsFacts.at_index_in_bounds dataList left) as [dl Hdl];
    [unfold in_bounds; lia|].
  destruct (UtilsFacts.at_index_in_bounds dataList right) as [dr Hdr];
    [unfold in_bounds; lia|].
  exists (valueKey dl), (valueKey dm), (valueKey dr).
  unfold key_at. rewrite Hm, Hdl, Hdr. repeat split.
  cbn [search_loop]. destruct (decide (left = right)); [lia|].
  fold midIndex. unfold read_key. rewrite Hm, Hdl.
  destruct (decide (targetValue = valueKey dl)); [done|]. rewrite Hdr.
  destruct (decide (targetValue = valueKey dr)); [done|].
  destruct (decide (targetValue = valueKey dm)); [done|].
  destruct (decide (right - left <= 2)); [done|].
  apply result_trace_irrelevant.
Qed.

(** Exact search, on a window: a key equal to the target inside the window
    is found. *)
Lemma search_loop_finds (dataList : list T) (targetValue : Z) :
  ascending valueKey dataList ->
  forall (fuel : nat) (left right : Z) (tr : list Z) (k : Z),
    0 <= left -> left <= right -> right < Z.of_nat (length dataList) ->
    right - left <= Z.of_nat fuel ->
    left <= k <= right -> key_at valueKey dataList k = Some targetValue ->
    exists i,
      result (search_loop valueKey fuel dataList targetValue left right tr)
        = Returned i
      /\ key_at valueKey dataList i = Some targetValue.
Proof.
  intros Hasc. induction fuel as [|fuel IH];
    intros left right tr k Hl Hlr Hr Hfuel Hk Hkey.
  - simpl. destruct (decide (left = right)); [|lia].
    exists left. split; [done|]. by replace left with k by lia.
  - destruct (decide (left = right)) as [Heq|Hne].
    { simpl. destruct (decide (left = right)); [|done].
      exists left. split; [done|]. by replace left with k by lia. }
    destruct (search_loop_step dataList targetValue fuel left right tr)
      as (lv & mv & rv & Hlv & Hmv & Hrv & ->); [lia|lia|lia|].
    pose proof (UtilsFacts.midIndex_between left right ltac:(lia)) as Hmid.
    pose proof (midIndex_halves left right) as Hhalf.
    set (midIndex := (right + left) `div` 2) in *.
    destruct (decide (targetValue = lv)) as [->|Hnl]; [by exists left|].
    destruct (decide (targetValue = rv)) as [->|Hnr]; [by exists right|].
    destruct (decide (targetValue = mv)) as [->|Hnm]; [by exists midIndex|].
    assert (k <> left) as Hkl by (intros ->; congruence).
    assert (k <> right) as Hkr by (intros ->; congruence).
    assert (k <> midIndex) as Hkm by (intros ->; congruence).
    destruct (decide (right - left <= 2)) as [Hsmall|Hlarge].
    { exfalso. lia. }
    pose proof (UtilsFacts.midIndex_strict left right ltac:(lia)) as Hstrict.
    fold midIndex in Hstrict.
    destruct (decide (targetValue > mv)) as [Hgt|Hle].
    + apply (IH midIndex right [] k); try lia; [|done].
      destruct (decide (midIndex <= k)); [lia|].
      pose proof (ascending_keys dataList k midIndex _ _ Hasc ltac:(lia) Hkey Hmv).
      lia.
    + apply (IH left midIndex [] k); try lia; [|done].
      destruct (decide (k <= midIndex)); [lia|].
      pose proof (ascending_keys dataList midIndex k _ _ Hasc ltac:(lia) Hmv Hkey).
      lia.
Qed.

(** The position the loop settles on, for a target between the keys at the
    two ends of the window: the key there is at most the target, and the
    keys to the right of it are at least the target. *)
Lemma search_loop_floor (dataList : list T) (targetValue : Z) :
  ascending valueKey dataList ->
  forall (fuel : nat) (left right : Z) (tr : list Z) (lv rv : Z),
    0 <= left -> left <= right -> right < Z.of_nat (length dataList) ->
    right - left <= Z.of_nat fuel ->
    key_at valueKey dataList left = Some lv -> lv <= targetValue ->
    key_at valueKey dataList right = Some rv -> targetValue <= rv ->
    exists i ki,
      result (search_loop valueKey fuel dataList targetValue left right tr)
        = Returned i
      /\ key_at valueKey dataList i = Some ki
      /\ ki <= targetValue
      /\ forall j kj, i < j -> key_at valueKey dataList j = Some kj ->
           targetValue <= kj.
Proof.
  intros Hasc.
  assert (forall i ki, key_at valueKey dataList i = Some ki -> targetValue <= ki ->
            forall j kj, i <= j -> key_at valueKey dataList j = Some kj ->
              targetValue <= kj) as Hright.
  { intros i ki Hi Hle j kj Hij Hj.
    pose proof (ascending_keys dataList i j _ _ Hasc Hij Hi Hj). lia. }
  induction fuel as [|fuel IH];
    intros left right tr lv0 rv0 Hl Hlr Hr Hfuel Hlv0 Hlo Hrv0 Hhi.
  - simpl. destruct (decide (left = right)) as [->|]; [|lia].
    exists right, lv0. repeat split; try done.
    intros j kj Hj Hkj. apply (Hright right rv0 Hrv0 Hhi j kj); [lia|done].
  - destruct (decide (left = right)) as [Heq|Hne].
    { simpl. destruct (decide (left = right)) as [->|]; [|done].
      exists right, lv0. repeat split; try done.
      intros j kj Hj Hkj. apply (Hright right rv0 Hrv0 Hhi j kj); [lia|done]. }
    destruct (search_loop_step dataList targetValue fuel left right tr)
      as (lv & mv & rv & Hlv & Hmv & Hrv & ->); [lia|lia|lia|].
    rewrite Hlv in Hlv0. rewrite Hrv in Hrv0. simplify_eq.
    pose proof (UtilsFacts.midIndex_between left right ltac:(lia)) as Hmid.
    pose proof (midIndex_halves left right) as Hhalf.
    set (midIndex := (right + left) `div` 2) in *.
    destruct (decide (targetValue = lv0)) as [->|Hnl].
    { exists left, lv0. repeat split; try done.
      intros j kj Hj Hkj. apply (Hright left lv0 Hlv ltac:(lia) j kj); [lia|done]. }
    destruct (decide (targetValue = rv0)) as [->|Hnr].
    { exists right, rv0. repeat split; try done.
      intros j kj Hj Hkj. apply (Hright right rv0 Hrv ltac:(lia) j kj); [lia|done]. }
    destruct (decide (targetValue = mv)) as [->|Hnm].
    { exists midIndex, mv. repeat split; try done.
      intros j kj Hj Hkj. apply (Hright midIndex mv Hmv ltac:(lia) j kj); [lia|done]. }
    destruct (decide (right - left <= 2)) as [Hsmall|Hlarge].
    { destruct (decide (targetValue > mv)) as [Hgt|Hle].
      - exists midIndex, mv. repeat split; [done|lia|].
        intros j kj Hj Hkj.
        apply (Hright right rv0 Hrv Hhi j kj); [lia|done].
      - exists left, lv0. repeat split; [done|lia|].
        intros j kj Hj Hkj.
        apply (Hright midIndex mv Hmv ltac:(lia) j kj); [|done].
        destruct (decide (midIndex = left)) as [Hm|Hm]; [|lia].
        rewrite Hm in Hmv. rewrite Hmv in Hlv. simplify_eq. lia. }
    pose proof (UtilsFacts.midIndex_strict left right ltac:(lia)) as Hstrict.
    fold midIndex in Hstrict.
    destruct (decide (targetValue > mv)) as [Hgt|Hle].
    + apply (IH midIndex right [] mv rv0); try done; lia.
    + apply (IH left midIndex [] lv0 mv); try done; lia.
Qed.

(** A target below every key: the window closes onto its left end. *)
Lemma search_loop_below (dataList : list T) (targetValue : Z) :
  Forall (fun d => targetValue < valueKey d) dataList ->
  forall (fuel : nat) (left right : Z) (tr : list Z),
    0 <= left -> left <= right -> right < Z.of_nat (length dataList) ->
    right - left <= Z.of_nat fuel ->
    result (search_loop valueKey fuel dataList targetValue left right tr)
      = Returned left.
Proof.
  intros Hall.
  assert (forall i k, key_at valueKey dataList i = Some k -> targetValue < k)
    as Hkeys.
  { intros i k. unfold key_at, at_index. destruct (decide (0 <= i)); [|done].
    destruct (dataList !! Z.to_nat i) as [d|] eqn:E; [|done].
    intros [= <-]. rewrite Forall_forall in Hall. apply Hall.
    by eapply list_elem_of_lookup_2. }
  induction fuel as [|fuel IH]; intros left right tr Hl Hlr Hr Hfuel.
  - simpl. destruct (decide (left = right)); [done|lia].
  - destruct (decide (left = right)) as [Heq|Hne].
    { simpl. by destruct (decide (left = right)). }
    destruct (search_loop_step dataList targetValue fuel left right tr)
      as (lv & mv & rv & Hlv & Hmv & Hrv & ->); [lia|lia|lia|].
    pose proof (UtilsFacts.midIndex_between left right ltac:(lia)) as Hmid.
    pose proof (Hkeys _ _ Hlv). pose proof (Hkeys _ _ Hmv).
    pose proof (Hkeys _ _ Hrv).
    destruct (decide (targetValue = lv)); [done|].
    destruct (decide (targetValue = rv)); [lia|].
    destruct (decide (targetValue = mv)); [lia|].
    destruct (decide (targetValue > mv)); [lia|].
    destruct (decide (right - left <= 2)); [done|].
    apply IH; lia.
Qed.

(** A target above every key: the window closes onto its right end, and
    the loop leaves with the index just before it. *)
Lemma search_loop_above (dataList : list T) (targetValue : Z) :
  Forall (fun d => valueKey d < targetValue) dataList ->
  forall (fuel : nat) (left right : Z) (tr : list Z),
    0 <= left -> left < right -> right < Z.of_nat (length dataList) ->
    right - left <= Z.of_nat fuel ->
    result (search_loop valueKey fuel dataList targetValue left right tr)
      = Returned (right - 1).
Proof.
  intros Hall.
  assert (forall i k, key_at valueKey dataList i = Some k -> k < targetValue)
    as Hkeys.
  { intros i k. unfold key_at, at_index. destruct (decide (0 <= i)); [|done].
    destruct (dataList !! Z.to_nat i) as [d|] eqn:E; [|done].
    intros [= <-]. rewrite Forall_forall in Hall. apply Hall.
    by eapply list_elem_of_lookup_2. }
  induction fuel as [|fuel IH]; intros left right tr Hl Hlr Hr Hfuel; [lia|].
  destruct (search_loop_step dataList targetValue fuel left right tr)
    as (lv & mv & rv & Hlv & Hmv & Hrv & ->); [lia|lia|lia|].
  pose proof (UtilsFacts.midIndex_between left right ltac:(lia)) as Hmid.
  pose proof (midIndex_halves left right) as Hhalf.
  pose proof (Hkeys _ _ Hlv). pose proof (Hkeys _ _ Hmv).
  pose proof (Hkeys _ _ Hrv).
  destruct (decide (targetValue = lv)); [lia|].
  destruct (decide (targetValue = rv)); [lia|].
  destruct (decide (targetValue = mv)); [lia|].
  destruct (decide (targetValue > mv)); [|lia].
  destruct (decide (right - left <= 2)); [f_equal; lia|].
  apply IH; lia.
Qed.

(** A list whose consecutive keys do not decrease is ascending. *)
Fixpoint ascendingb (dataList : list T) : bool :=
  match dataList with
  | x :: (y :: _) as rest => bool_decide (valueKey x <= valueKey y) && ascendingb rest
  | _ => true
  end.

Lemma ascendingb_sound (dataList : list T) :
  ascendingb dataList = true -> ascending valueKey dataList.
Proof.
  induction dataList as [|x l IH]; intros Hb i j a b Hij Ha Hb'.
  - done.
  - assert (ascending valueKey l) as Hl.
    { apply IH. destruct l; [done|]. simpl in Hb.
      by apply andb_prop in Hb as [_ ?]. }
    destruct i as [|i], j as [|j]; simpl in Ha, Hb'; simplify_eq; try lia.
    + destruct l as [|y l']; [done|]. simpl in Hb.
      apply andb_prop in Hb as [Hxy _]. apply bool_decide_eq_true in Hxy.
      assert (valueKey y <= valueKey b); [|lia].
      apply (Hl 0%nat j y b); [lia|done|done].
    + apply (Hl i j a b); [lia|done|done].
Qed.

End Search.

(** X1. Exact search: on an ascending list that holds the target as a key,
    [binarySearchNearest] returns an index whose key is the target. *)
Theorem binarySearchNearest_finds_exact {T : Type} (valueKey : T -> Z)
    (dataList : list T) (targetValue k : Z) :
  ascending valueKey dataList ->
  key_at valueKey dataList k = Some targetValue ->
  exists i,
    result (binarySearchNearest valueKey dataList targetValue) = Returned i
    /\ key_at valueKey dataList i = Some targetValue.
Proof.
  intros Hasc Hk. pose proof (key_at_Some_in_bounds valueKey _ _ _ Hk) as Hb.
  unfold in_bounds in Hb. unfold binarySearchNearest.
  apply (search_loop_finds valueKey dataList targetValue Hasc _ _ _ _ k);
    try lia; done.
Qed.

Lemma binarySearchNearest_finds_exact_witness :
  exists i,
    result (binarySearchNearest value
              [Sample 1; Sample 3; Sample 5; Sample 8; Sample 13] 8)
      = Returned i
    /\ key_at value [Sample 1; Sample 3; Sample 5; Sample 8; Sample 13] i
       = Some 8.
Proof.
  apply (binarySearchNearest_finds_exact value _ 8 3).
  - by apply ascendingb_sound.
  - reflexivity.
Defined.

(** X2. What the function returns for a target within the range of an
    ascending list: an index whose key is at most the target, such that
    every key to its right is at least the target (the last position at or
    below the target, not the nearest one). *)
Theorem binarySearchNearest_floor {T : Type} (valueKey : T -> Z)
    (dataList : list T) (targetValue lo hi : Z) :
  ascending valueKey dataList ->
  key_at valueKey dataList 0 = Some lo -> lo <= targetValue ->
  key_at valueKey dataList (Z.of_nat (length dataList) - 1) = Some hi ->
  targetValue <= hi ->
  exists i ki,
    result (binarySearchNearest valueKey dataList targetValue) = Returned i
    /\ key_at valueKey dataList i = Some ki
    /\ ki <= targetValue
    /\ forall j kj, i < j -> key_at valueKey dataList j = Some kj ->
         targetValue <= kj.
Proof.
  intros Hasc Hlo Hle Hhi Hge.
  pose proof (key_at_Some_in_bounds valueKey _ _ _ Hlo) as Hb.
  unfold in_bounds in Hb. unfold binarySearchNearest.
  apply (search_loop_floor valueKey dataList targetValue Hasc _ _ _ _ lo hi);
    try lia; done.
Qed.

Lemma binarySearchNearest_floor_witness :
  exists i ki,
    result (binarySearchNearest value [Sample 1; Sample 3; Sample 10] 9)
      = Returned i
    /\ key_at value [Sample 1; Sample 3; Sample 10] i = Some ki
    /\ ki <= 9
    /\ forall j kj, i < j ->
         key_at value [Sample 1; Sample 3; Sample 10] j = Some kj -> 9 <= kj.
Proof.
  apply (binarySearchNearest_floor value _ 9 1 10).
  - by apply ascendingb_sound.
  - reflexivity.
  - lia.
  - reflexivity.
  - lia.
Defined.

(** X3. Targets outside the range of the keys of a non-empty list: below
    every key the function returns index 0; above every key it returns the
    index before the last one, [length - 2] (index 0 for a one-element
    list), never the last index. *)
Theorem binarySearchNearest_outside {T : Type} (valueKey : T -> Z)
    (dataList : list T) (targetValue : Z) :
  dataList <> [] ->
  (Forall (fun d => targetValue < valueKey d) dataList ->
   result (binarySearchNearest valueKey dataList targetValue) = Returned 0)
  /\ (Forall (fun d => valueKey d < targetValue) dataList ->
      result (binarySearchNearest valueKey dataList targetValue)
        = Returned (Z.max 0 (Z.of_nat (length dataList) - 2))).
Proof.
  intros Hne.
  assert (0 < length dataList)%nat by (destruct dataList; [done|simpl; lia]).
  unfold binarySearchNearest. split; intros Hall.
  - apply (search_loop_below valueKey dataList targetValue Hall); lia.
  - destruct (decide (length dataList = 1%nat)) as [H1|H1].
    + rewrite H1. simpl. done.
    + rewrite (search_loop_above valueKey dataList targetValue Hall); try lia.
      f_equal. lia.
Qed.

Lemma binarySearchNearest_outside_witness :
  result (binarySearchNearest value [Sample 1; Sample 3; Sample 10] 0)
    = Returned 0
  /\ result (binarySearchNearest value [Sample 1; Sample 3; Sample 10] 11)
     = Returned 1.
Proof.
  split.
  - apply (binarySearchNearest_outside value [Sample 1; Sample 3; Sample 10] 0);
      [discriminate|]. repeat constructor.
  - apply (binarySearchNearest_outside value [Sample 1; Sample 3; Sample 10] 11);
      [discriminate|]. repeat constructor.
Defined.
End UtilsExtra.

(** ** [getMaxMin] *)

Module MaxMinExtra.
Import Utils.
Local Open Scope Q_scope.

Section MaxMinBounds.
Context {D : Type} (maxKey minKey : D -> option Q).

Lemma fold_maxMin_bounds (dataList : list D) :
  forall acc : Q * Q,
    let r := fold_left (maxMin_step maxKey minKey) dataList acc in
    acc.1 <= r.1 /\ r.2 <= acc.2
    /\ (forall d v, d ∈ dataList -> maxKey d = Some v -> v <= r.1)
    /\ (forall d v, d ∈ dataList -> minKey d = Some v -> r.2 <= v)
    /\ (r.1 == acc.1 \/ r.1 == MIN_SAFE_INTEGER
        \/ exists d v, d ∈ dataList /\ maxKey d = Some v /\ v == r.1)
    /\ (r.2 == acc.2 \/ r.2 == MAX_SAFE_INTEGER
        \/ exists d v, d ∈ dataList /\ minKey d = Some v /\ v == r.2).
Proof.
  induction dataList as [|x l IH]; intros acc; cbn [fold_left].
  - cbv zeta. repeat split; try apply Qle_refl.
    + intros d v Hd. by apply elem_of_nil in Hd.
    + intros d v Hd. by apply elem_of_nil in Hd.
    + left. reflexivity.
    + left. reflexivity.
  - specialize (IH (maxMin_step maxKey minKey acc x)).
    cbv zeta in *. destruct IH as (Hmax & Hmin & Hub & Hlb & Hatt & Hatt').
    set (r := fold_left (maxMin_step maxKey minKey) l
                (maxMin_step maxKey minKey acc x)) in *.
    unfold maxMin_step in Hmax, Hmin, Hatt, Hatt'. cbn [fst snd] in *.
    repeat split.
    + eapply Qle_trans; [apply Q.le_max_r|exact Hmax].
    + eapply Qle_trans; [exact Hmin|apply Q.le_min_r].
    + intros d v Hd Hv. apply elem_of_cons in Hd as [->|Hd]; [|by eapply Hub].
      eapply Qle_trans; [|exact Hmax]. rewrite Hv. apply Q.le_max_l.
    + intros d v Hd Hv. apply elem_of_cons in Hd as [->|Hd]; [|by eapply Hlb].
      eapply Qle_trans; [exact Hmin|]. rewrite Hv. apply Q.le_min_l.
    + destruct Hatt as [Heq|[Heq|(d & v & Hd & Hv & Heq)]].
      * destruct (Q.max_dec (default MIN_SAFE_INTEGER (maxKey x)) acc.1)
          as [Hm|Hm].
        -- destruct (maxKey x) as [v|] eqn:Hx; cbn [default] in *.
           ++ right. right. exists x, v. split; [apply list_elem_of_here|].
              split; [done|]. by rewrite Heq, Hm.
           ++ right. left. by rewrite Heq, Hm.
        -- left. by rewrite Heq, Hm.
      * right. by left.
      * right. right. exists d, v. split; [by apply list_elem_of_further|done].
    + destruct Hatt' as [Heq|[Heq|(d & v & Hd & Hv & Heq)]].
      * destruct (Q.min_dec (default MAX_SAFE_INTEGER (minKey x)) acc.2)
          as [Hm|Hm].
        -- destruct (minKey x) as [v|] eqn:Hx; cbn [default] in *.
           ++ right. right. exists x, v. split; [apply list_elem_of_here|].
              split; [done|]. by rewrite Heq, Hm.
           ++ right. left. by rewrite Heq, Hm.
        -- left. by rewrite Heq, Hm.
      * right. by left.
      * right. right. exists d, v. split; [by apply list_elem_of_further|done].
Qed.

End MaxMinBounds.

(** X4. [getMaxMin] returns [[max, min]] where [max] is an upper bound of
    every present [maxKey] value and of [MIN_SAFE_INTEGER], and is one of
    them; [min] is a lower bound of every present [minKey] value and of
    [MAX_SAFE_INTEGER], and is one of them. Missing fields constrain
    nothing: for the empty list, or when every field is missing, the result
    is [[MIN_SAFE_INTEGER, MAX_SAFE_INTEGER]]. *)
Theorem getMaxMin_bounds {D : Type} (maxKey minKey : D -> option Q)
    (dataList : list D) :
  let r := getMaxMin maxKey minKey dataList in
  MIN_SAFE_INTEGER <= r.1 /\ r.2 <= MAX_SAFE_INTEGER
  /\ (forall d v, d ∈ dataList -> maxKey d = Some v -> v <= r.1)
  /\ (forall d v, d ∈ dataList -> minKey d = Some v -> r.2 <= v)
  /\ (r.1 == MIN_SAFE_INTEGER
      \/ exists d v, d ∈ dataList /\ maxKey d = Some v /\ v == r.1)
  /\ (r.2 == MAX_SAFE_INTEGER
      \/ exists d v, d ∈ dataList /\ minKey d = Some v /\ v == r.2)
  /\ (Forall (fun d => maxKey d = None /\ minKey d = None) dataList ->
      r.1 == MIN_SAFE_INTEGER /\ r.2 == MAX_SAFE_INTEGER).
Proof.
  pose proof (fold_maxMin_bounds maxKey minKey dataList
                (MIN_SAFE_INTEGER, MAX_SAFE_INTEGER)) as H.
  cbv zeta in *. fold (getMaxMin maxKey minKey dataList) in H.
  cbn [fst snd] in H.
  destruct H as (Hmax & Hmin & Hub & Hlb & Hatt & Hatt').
  assert ((getMaxMin maxKey minKey dataList).1 == MIN_SAFE_INTEGER
      \/ exists d v, d ∈ dataList /\ maxKey d = Some v
                     /\ v == (getMaxMin maxKey minKey dataList).1) as Ha.
  { destruct Hatt as [?|[?|?]]; auto. }
  assert ((getMaxMin maxKey minKey dataList).2 == MAX_SAFE_INTEGER
      \/ exists d v, d ∈ dataList /\ minKey d = Some v
                     /\ v == (getMaxMin maxKey minKey dataList).2) as Ha'.
  { destruct Hatt' as [?|[?|?]]; auto. }
  repeat split; try done.
  - destruct Ha as [?|(d & v & Hd & Hv & _)]; [done|].
    rewrite Forall_forall in H. destruct (H d Hd) as [Hn _]. congruence.
  - destruct Ha' as [?|(d & v & Hd & Hv & _)]; [done|].
    rewrite Forall_forall in H. destruct (H d Hd) as [_ Hn]. congruence.
Qed.

(** The documentation's example, [[{high: 10, low: 5}, {high: 15, low: 8}]],
    with an entry that has neither field. *)
Example getMaxMin_example :
  getMaxMin fst snd [(Some 10, Some 5); (None, None); (Some 15, Some 8)]
    = (15, 5).
Proof. reflexivity. Qed.

Lemma getMaxMin_bounds_witness :
  (getMaxMin fst snd [(None, None); (@None Q, @None Q)]).1 == MIN_SAFE_INTEGER
  /\ (getMaxMin fst snd [(None, None); (@None Q, @None Q)]).2 == MAX_SAFE_INTEGER.
Proof.
  apply (getMaxMin_bounds fst snd [(None, None); (@None Q, @None Q)]).
  repeat constructor.
Defined.

End MaxMinExtra.

(** ** More on the action bus *)

Module ActionExtra.
Import Action.

Section BusExtra.
Context {Callback : Type} `{!EqDecision Callback} {Data : Type}.
Implicit Types (a : Action.t Callback) (c f g : Callback) (x : Data).

(** [indexOf] finds the first occurrence. *)
Lemma indexOf_first l1 f l2 :
  f ∉ l1 -> indexOf (l1 ++ f :: l2) f = Z.of_nat (length l1).
Proof.
  induction l1 as [|c l1 IH]; intros Hni; simpl.
  - by destruct (decide (f = f)).
  - apply not_elem_of_cons in Hni as [Hne Hni].
    destruct (decide (c = f)); [congruence|]. rewrite IH by done.
    destruct (decide (Z.of_nat (length l1) < 0)); lia.
Qed.

(** [unsubscribe(f)] takes out the first occurrence of [f] and nothing
    else; without an occurrence it changes nothing. *)
Lemma unsubscribe_first l1 f l2 :
  f ∉ l1 ->
  unsubscribe (Some f) (Make (l1 ++ f :: l2)) = Make (l1 ++ l2).
Proof.
  intros Hni. unfold unsubscribe. cbn [_callbacks].
  rewrite indexOf_first by done.
  destruct (decide (Z.of_nat (length l1) > -1)); [|lia].
  f_equal. rewrite Nat2Z.id. clear Hni g.
  induction l1 as [|c l1 IH]; [done|]. simpl. by f_equal.
Qed.

Lemma unsubscribe_absent f a :
  f ∉ _callbacks a -> unsubscribe (Some f) a = a.
Proof.
  intros Hni. unfold unsubscribe.
  apply (ActionFacts.indexOf_absent (_callbacks a) f) in Hni.
  destruct (decide (indexOf (_callbacks a) f > -1)); [lia|done].
Qed.

Lemma filter_absent f (l : list Callback) :
  f ∉ l -> filter (fun g => g <> f) l = l.
Proof.
  induction l as [|c l IH]; intros Hni; [done|].
  apply not_elem_of_cons in Hni as [Hne Hni].
  rewrite filter_cons_True by congruence. f_equal. by apply IH.
Qed.

Lemma unsubscribe_filter f a :
  NoDup (_callbacks a) ->
  _callbacks (unsubscribe (Some f) a) = filter (fun g => g <> f) (_callbacks a).
Proof.
  intros Hnd. destruct (decide (f ∈ _callbacks a)) as [Hin|Hni].
  - apply list_elem_of_split in Hin as (l1 & l2 & Heq).
    destruct a as [l]. cbn [_callbacks] in *. subst l.
    apply NoDup_app in Hnd as (Hnd1 & Hdisj & Hnd2).
    apply NoDup_cons in Hnd2 as [Hni2 Hnd2].
    assert (f ∉ l1) as Hni1.
    { intros Hin. apply (Hdisj f Hin). apply list_elem_of_here. }
    rewrite unsubscribe_first by done. cbn [_callbacks].
    rewrite filter_app, filter_cons_False by (intros H; by apply H).
    by rewrite !filter_absent.
  - rewrite unsubscribe_absent by done. by rewrite filter_absent.
Qed.

(** A callback that is not in the list is not invoked. *)
Lemma execute_without (l : list Callback) f x :
  f ∉ l ->
  filter (fun inv : Callback * Data => inv.1 = f)
         (map (fun callback => (callback, x)) l) = [].
Proof.
  induction l as [|c l IH]; intros Hni; [done|].
  apply not_elem_of_cons in Hni as [Hne Hni]. cbn [map].
  rewrite filter_cons_False by (cbn [fst]; congruence). by apply IH.
Qed.

End BusExtra.

(** X5. Unsubscribing by reference: in any state of the bus,
    [unsubscribe(f)] removes [f] and keeps every other subscriber in its
    place; it changes nothing when [f] is not subscribed; and it undoes a
    [subscribe(f)] that added [f]. Afterwards [execute] no longer invokes
    [f]. *)
Theorem unsubscribe_one {Callback : Type} `{!EqDecision Callback} {Data : Type}
    (a : Action.t Callback) (f : Callback) (x : Data) :
  reachable a ->
  _callbacks (unsubscribe (Some f) a)
    = filter (fun g => g <> f) (_callbacks a)
  /\ invocations_of f (execute x (unsubscribe (Some f) a)) = 0%nat
  /\ (f ∉ _callbacks a ->
      unsubscribe (Some f) a = a
      /\ unsubscribe (Some f) (subscribe f a) = a).
Proof.
  intros Hr. pose proof (ActionFacts.reachable_NoDup a Hr) as Hnd.
  pose proof (unsubscribe_filter f a Hnd) as Hfilter.
  split; [done|]. split.
  - unfold invocations_of, execute. rewrite Hfilter.
    rewrite execute_without; [done|]. intros Hin.
    apply list_elem_of_filter in Hin as [Hne _]. by apply Hne.
  - intros Hni. split; [by apply unsubscribe_absent|].
    unfold subscribe.
    pose proof (proj2 (ActionFacts.indexOf_absent (_callbacks a) f) Hni).
    destruct (decide (indexOf (_callbacks a) f < 0)); [|lia].
    destruct a as [cbs]. cbn [_callbacks] in *.
    rewrite unsubscribe_first by done. by rewrite app_nil_r.
Qed.

Lemma unsubscribe_one_witness :
  let a : Action.t nat := subscribe 9%nat (subscribe 3%nat (subscribe 7%nat new)) in
  _callbacks (unsubscribe (Some 3%nat) a) = [7%nat; 9%nat].
Proof.
  intros a.
  exact (proj1 (unsubscribe_one (Data := Z) a 3%nat 0
    (reachable_subscribe _ _ (reachable_subscribe _ _
       (reachable_subscribe _ _ reachable_new))))).
Defined.

(** X6. Fan-out: in any state of the bus, [execute(x)] invokes every
    subscriber exactly once, in subscription order, each with [x]; a new
    subscriber is invoked last; and [isEmpty()] holds exactly when
    [execute] invokes nothing. *)
Theorem execute_fan_out {Callback : Type} `{!EqDecision Callback} {Data : Type}
    (a : Action.t Callback) (f : Callback) (x : Data) :
  reachable a ->
  map fst (execute x a) = _callbacks a
  /\ NoDup (map fst (execute x a))
  /\ Forall (fun inv => inv.2 = x) (execute x a)
  /\ invocations_of f (execute x a) = (if decide (f ∈ _callbacks a) then 1 else 0)%nat
  /\ (f ∉ _callbacks a ->
      execute x (subscribe f a) = execute x a ++ [(f, x)])
  /\ (isEmpty a = true <-> execute x a = []).
Proof.
  intros Hr. pose proof (ActionFacts.reachable_NoDup a Hr) as Hnd.
  assert (map fst (execute x a) = _callbacks a) as Hfst.
  { unfold execute. rewrite map_map. cbn [fst]. apply map_id. }
  split; [done|]. split; [by rewrite Hfst|]. split.
  { unfold execute. apply Forall_map. by apply Forall_true. }
  split.
  { destruct (decide (f ∈ _callbacks a)) as [Hin|Hni].
    - unfold invocations_of, execute.
      by rewrite (ActionFacts.execute_once _ f x Hnd Hin).
    - unfold invocations_of, execute. by rewrite execute_without. }
  split.
  { intros Hni. unfold subscribe.
    pose proof (proj2 (ActionFacts.indexOf_absent (_callbacks a) f) Hni).
    destruct (decide (indexOf (_callbacks a) f < 0)); [|lia].
    unfold execute. cbn [_callbacks]. by rewrite map_app. }
  unfold isEmpty, execute. rewrite bool_decide_eq_true.
  destruct (_callbacks a); [done|]. split; [by simpl|done].
Qed.

Lemma execute_fan_out_witness :
  let a : Action.t nat := subscribe 9%nat (subscribe 3%nat (subscribe 7%nat new)) in
  map fst (execute 42 a) = [7%nat; 3%nat; 9%nat].
Proof.
  intros a.
  exact (proj1 (execute_fan_out a 0%nat 42
    (reachable_subscribe _ _ (reachable_subscribe _ _
       (reachable_subscribe _ _ reachable_new))))).
Defined.

End ActionExtra.

(** ** More on the event dispatch tree *)

Module EventfulExtra.
Import Eventful.

Section TreeExtra.
Context {MouseTouchEvent : Type}.
Implicit Types (n c : node MouseTouchEvent) (cs : list (node MouseTouchEvent)).

(** Induction over a tree of nodes: a property that holds of a node
    whenever it holds of its children holds of every node. *)
Fixpoint node_tree_ind (P : node MouseTouchEvent -> Prop)
    (step : forall n, Forall P (_children n) -> P n) (n : node MouseTouchEvent)
    {struct n} : P n :=
  step n
    (match n as m return Forall P (_children m) with
     | Node _ _ cs _ =>
       (fix all (cs : list (node MouseTouchEvent)) : Forall P cs :=
          match cs with
          | [] => @List.Forall_nil _ P
          | c :: cs' =>
            @List.Forall_cons _ P c cs' (node_tree_ind P step c) (all cs')
          end) cs
     end).

(** No node of the tree overrides [checkEventOn]. *)
Fixpoint plain (n : node MouseTouchEvent) : bool :=
  match hitTest n with
  | Some _ => false
  | None => forallb plain (_children n)
  end.

(** No node of the tree has a handler registered for [name]. *)
Fixpoint silent (name : EventName) (n : node MouseTouchEvent) : bool :=
  bool_decide (_callbacks n !! name = None)
  && forallb (silent name) (_children n).

(** The defining equation of [checkEventOn]. *)
Lemma checkEventOn_unfold n (event : MouseTouchEvent) :
  checkEventOn n event =
    match hitTest n with
    | Some f => f event
    | None => existsb (fun c => checkEventOn c event) (_children n)
    end.
Proof.
  destruct n as [i cb cs ht]. cbn [checkEventOn hitTest _children].
  destruct ht; [done|]. induction cs as [|c cs IH]; [done|].
  cbn [existsb]. rewrite <- IH. by destruct (checkEventOn c event).
Qed.

Lemma dispatch_children_quiet
    (dispatch : node MouseTouchEvent -> bool * list invocation) cs :
  Forall (fun c => dispatch c = (false, [])) cs ->
  dispatch_children dispatch cs = (false, []).
Proof.
  induction 1 as [|c cs Hc _ IH]; [done|].
  cbn [dispatch_children]. fold (dispatch_children dispatch cs).
  rewrite IH. cbn [fst snd]. by rewrite Hc.
Qed.

Lemma plain_no_hit n (event : MouseTouchEvent) :
  plain n = true -> checkEventOn n event = false.
Proof.
  induction n as [n IH] using node_tree_ind. intros Hp.
  rewrite checkEventOn_unfold. destruct n as [i cb cs ht].
  cbn [plain hitTest _children] in *. destruct ht; [done|].
  induction cs as [|c cs IHcs]; [done|].
  cbn [forallb existsb] in *. apply andb_prop in Hp as [Hc Hcs].
  apply Forall_cons in IH as [IHc IH]. rewrite (IHc Hc). by apply IHcs.
Qed.

Lemma plain_quiet n name (event : MouseTouchEvent) other :
  plain n = true -> dispatchEvent n name event other = (false, []).
Proof.
  induction n as [n IH] using node_tree_ind. intros Hp.
  rewrite EventfulFacts.dispatchEvent_unfold. cbv zeta.
  rewrite dispatch_children_quiet.
  - cbn [fst snd app]. unfold onEvent. rewrite (plain_no_hit n event Hp).
    by destruct (_callbacks n !! name).
  - destruct n as [i cb cs ht]. cbn [plain hitTest _children] in *.
    destruct ht; [done|].
    induction cs as [|c cs IHcs]; [constructor|].
    cbn [forallb] in Hp. apply andb_prop in Hp as [Hc Hcs].
    apply Forall_cons in IH as [IHc IH]. constructor; [by apply IHc|by apply IHcs].
Qed.

Lemma silent_quiet n name (event : MouseTouchEvent) other :
  silent name n = true -> dispatchEvent n name event other = (false, []).
Proof.
  induction n as [n IH] using node_tree_ind. intros Hs.
  rewrite EventfulFacts.dispatchEvent_unfold. cbv zeta.
  destruct n as [i cb cs ht]. cbn [silent _callbacks _children] in *.
  apply andb_prop in Hs as [Hown Hcs]. apply bool_decide_eq_true in Hown.
  rewrite dispatch_children_quiet.
  - cbn [fst snd app]. unfold onEvent. cbn [_callbacks].
    unfold MouseTouchEventCallback in *. by rewrite Hown.
  - clear Hown. induction cs as [|c cs IHcs]; [constructor|].
    cbn [forallb] in Hcs. apply andb_prop in Hcs as [Hc Hcs].
    apply Forall_cons in IH as [IHc IH]. constructor; [by apply IHc|by apply IHcs].
Qed.

(** The children loop reports handled only after an invocation. *)
Lemma dispatch_children_handled
    (dispatch : node MouseTouchEvent -> bool * list invocation) cs :
  Forall (fun c => (dispatch c).1 = true -> (dispatch c).2 <> []) cs ->
  (dispatch_children dispatch cs).1 = true ->
  (dispatch_children dispatch cs).2 <> [].
Proof.
  induction 1 as [|c cs Hc _ IH]; [done|].
  cbn [dispatch_children]. fold (dispatch_children dispatch cs).
  destruct (dispatch_children dispatch cs) as [[|] tr]; cbn [fst snd] in *.
  - intros _. by apply IH.
  - intros Hh. specialize (Hc Hh). intros Happ.
    apply app_eq_nil in Happ as [_ ?]. done.
Qed.

Lemma handled_invokes n name (event : MouseTouchEvent) other :
  (dispatchEvent n name event other).1 = true ->
  (dispatchEvent n name event other).2 <> [].
Proof.
  induction n as [n IH] using node_tree_ind.
  rewrite EventfulFacts.dispatchEvent_unfold. cbv zeta.
  pose proof (dispatch_children_handled
                (fun c => dispatchEvent c name event other) (_children n) IH)
    as Hch.
  destruct (dispatch_children _ (_children n)) as [[|] tr]; cbn [fst snd] in *.
  - intros _. by apply Hch.
  - unfold onEvent. destruct (_callbacks n !! name); [|done].
    destruct (checkEventOn n event); [|done]. cbn [fst snd]. intros _ Happ.
    apply app_eq_nil in Happ as [_ ?]. done.
Qed.

Lemma checkEventOn_registerEvent n name h (event : MouseTouchEvent) :
  checkEventOn (registerEvent name h n) event = checkEventOn n event.
Proof. by destruct n. Qed.

End TreeExtra.

(** X7. A tree in which no node overrides [checkEventOn] handles nothing:
    the base [checkEventOn] is false on it (a leaf has no child to report a
    hit), so [dispatchEvent] returns false and invokes no handler, whatever
    handlers are registered. The same holds of any node once [clear()] has
    removed its children, unless the node itself overrides
    [checkEventOn]. *)
Theorem plain_tree_handles_nothing {MouseTouchEvent : Type}
    (n : node MouseTouchEvent) (name : EventName) (event : MouseTouchEvent)
    (other : option Z) :
  (plain n = true ->
   checkEventOn n event = false
   /\ dispatchEvent n name event other = (false, []))
  /\ (hitTest n = None ->
      checkEventOn (clear n) event = false
      /\ dispatchEvent (clear n) name event other = (false, [])).
Proof.
  split.
  - intros Hp. split; [by apply plain_no_hit|by apply plain_quiet].
  - intros Hht.
    assert (plain (clear n) = true) as Hp.
    { destruct n as [i cb cs ht]. cbn in *. by subst. }
    split; [by apply plain_no_hit|by apply plain_quiet].
Qed.

Lemma plain_tree_handles_nothing_witness :
  let h : MouseTouchEventCallback (MouseTouchEvent := unit) :=
    fun _ _ => true in
  let leaf := registerEvent "mouseClickEvent" h (Node 1 ∅ [] None) in
  let root := addChild leaf
                (registerEvent "mouseClickEvent" h (Node 0 ∅ [] None)) in
  dispatchEvent root "mouseClickEvent" () None = (false, []).
Proof.
  intros h leaf root.
  apply (proj1 (plain_tree_handles_nothing root "mouseClickEvent" () None)).
  reflexivity.
Defined.

(** X8. An event for which no node of the tree has a handler is not
    handled and invokes nothing; and whenever [dispatchEvent] reports
    handled, at least one handler was invoked. *)
Theorem dispatch_needs_handler {MouseTouchEvent : Type}
    (n : node MouseTouchEvent) (name : EventName) (event : MouseTouchEvent)
    (other : option Z) :
  (silent name n = true -> dispatchEvent n name event other = (false, []))
  /\ ((dispatchEvent n name event other).1 = true ->
      (dispatchEvent n name event other).2 <> []).
Proof.
  split; [apply silent_quiet|apply handled_invokes].
Qed.

Lemma dispatch_needs_handler_witness :
  let h : MouseTouchEventCallback (MouseTouchEvent := unit) :=
    fun _ _ => true in
  let leaf := registerEvent "mouseDownEvent" h
                (Node 1 ∅ [] (Some (fun _ => true))) in
  let root := addChild leaf
                (registerEvent "mouseDownEvent" h (Node 0 ∅ [] None)) in
  dispatchEvent root "mouseClickEvent" () None = (false, []).
Proof.
  intros h leaf root.
  apply (proj1 (dispatch_needs_handler root "mouseClickEvent" () None)).
  reflexivity.
Defined.

(** X9. [registerEvent] keeps one handler per name, the last one
    registered: after two registrations under [name], [onEvent] on a node
    that reports a hit invokes the second handler and returns its result;
    and a registration under another name leaves the dispatch of [name] as
    it was. *)
Theorem registerEvent_last_wins {MouseTouchEvent : Type}
    (n : node MouseTouchEvent) (name name' : EventName)
    (h1 h2 : MouseTouchEventCallback (MouseTouchEvent := MouseTouchEvent))
    (event : MouseTouchEvent) (other : option Z) :
  (checkEventOn n event = true ->
   onEvent (registerEvent name h2 (registerEvent name h1 n)) name event other
     = (h2 event other, [(ident n, name)]))
  /\ (name' <> name ->
      dispatchEvent (registerEvent name' h1 n) name event other
        = dispatchEvent n name event other).
Proof.
  split.
  - intros Hhit.
    rewrite (EventfulFacts.onEvent_handler _ name event other h2).
    + by destruct n.
    + by rewrite !checkEventOn_registerEvent.
    + destruct n as [i cb cs ht]. cbn [registerEvent _callbacks ident _children hitTest].
      apply lookup_insert_eq.
  - intros Hne. rewrite !EventfulFacts.dispatchEvent_unfold. cbv zeta.
    assert (onEvent (registerEvent name' h1 n) name event other
            = onEvent n name event other) as ->.
    { unfold onEvent. rewrite checkEventOn_registerEvent.
      destruct n as [i cb cs ht]. cbn [registerEvent _callbacks ident].
      unfold MouseTouchEventCallback in *. by rewrite lookup_insert_ne. }
    by destruct n.
Qed.

Lemma registerEvent_last_wins_witness :
  let first : MouseTouchEventCallback (MouseTouchEvent := unit) :=
    fun _ _ => true in
  let second : MouseTouchEventCallback (MouseTouchEvent := unit) :=
    fun _ _ => false in
  let n := Node 4 ∅ [] (Some (fun _ => true)) in
  onEvent (registerEvent "mouseMoveEvent" second
             (registerEvent "mouseMoveEvent" first n))
          "mouseMoveEvent" () None
    = (false, [(4%nat, "mouseMoveEvent")]).
Proof.
  intros first second n.
  apply (proj1 (registerEvent_last_wins n "mouseMoveEvent" "mouseMoveEvent"
                  first second () None)).
  reflexivity.
Defined.

End EventfulExtra.

(** ** More on the animation driver *)

Module AnimationExtra.
Import Animation AnimationFacts.

(** [this._doFrameCallback?.(x)], as the list of calls it makes. *)
Definition call (cb : option CallbackRef) (x : Z) : list (CallbackRef * Z) :=
  match cb with Some c => [(c, x)] | None => [] end.

(** The methods on a driver given field by field. *)
Lemma stop_world d n cb cur r t clk fs cs :
  stop (World (Make d n cb cur r t) clk fs cs)
  = World (Make d n cb cur false t) clk fs
          (cs ++ if r then call cb d else []).
Proof. destruct r, cb; unfold_driver; cbn [call]; by rewrite ?app_nil_r. Qed.

Lemma start_world d n cb cur r t clk fs cs :
  start (World (Make d n cb cur r t) clk fs cs)
  = if r then World (Make d n cb cur r t) clk fs cs
    else World (Make d n cb cur true clk) clk (fs ++ [Step]) cs.
Proof. by destruct r. Qed.

Lemma fire_world d n cb cur r t clk fs cs :
  fire (World (Make d n cb cur r t) clk (Step :: fs) cs)
  = if r then
      if decide (clk - t < d) then
        World (Make d n cb cur true t) clk (fs ++ [Step])
              (cs ++ call cb (clk - t))
      else if decide (cur + 1 < n) then
        World (Make d n cb (cur + 1) true clk) clk (fs ++ [Step])
              (cs ++ call cb d)
      else World (Make d n cb (cur + 1) false t) clk fs (cs ++ call cb d)
    else World (Make d n cb cur false t) clk fs cs.
Proof.
  destruct r; [|done]. unfold_driver.
  destruct (decide (clk - t < d)).
  - destruct cb; cbn [call]; by rewrite ?app_nil_r.
  - destruct cb; cbn [call]; destruct (decide (cur + 1 < n));
      by rewrite ?app_nil_r.
Qed.

Lemma elapsed_world a clk fs cs : elapsed (World a clk fs cs) = map snd cs.
Proof. done. Qed.

(** *** Any duration, any iteration count *)

(** The state of a started driver with duration [d] and iteration count
    [n]: the terminal calls made so far count the iterations completed; it
    is running, one frame pending, in an iteration below [n] (or in its
    first one, whatever [n] is), or idle after [max 1 n] iterations. *)
Definition iterating (cb : CallbackRef) (d n : Z) (w : world) : Prop :=
  duration (self w) = d
  /\ iterationCount (self w) = n
  /\ _doFrameCallback (self w) = Some cb
  /\ _time (self w) <= now w
  /\ Z.of_nat (occurrences d (elapsed w)) = _currentIterationCount (self w)
  /\ ((_running (self w) = true /\ frames w = [Step]
       /\ (_currentIterationCount (self w) = 0
           \/ 0 <= _currentIterationCount (self w) < n))
      \/ (_running (self w) = false /\ frames w = []
          /\ _currentIterationCount (self w) = Z.max 1 n)).

Lemma iterating_start cb d n t0 :
  iterating cb d n (start (fresh (Some d) (Some n) cb t0)).
Proof.
  unfold iterating, fresh, new, doFrame. unfold_driver. cbn [default].
  repeat split; try done; try lia. left. repeat split; try done. by left.
Qed.

Lemma iterating_fire cb d n w :
  iterating cb d n w -> iterating cb d n (fire w).
Proof.
  intros (Hd & Hn & Hcb & Ht & Hocc & Hphase). unpack_driver w. subst.
  destruct Hphase as [(-> & -> & Hcur)|(-> & -> & Hcur)].
  - rewrite fire_world. cbn [call].
    destruct (decide (clk - tm < d)) as [Hlt|Hge];
      [|destruct (decide (cur + 1 < n)) as [Hnext|Hlast]];
      unfold iterating; rewrite !elapsed_world in *; project_driver;
      rewrite map_app; cbn [map snd]; rewrite occurrences_snoc.
    + destruct (decide (clk - tm = d)); [lia|].
      repeat split; try done; try lia. by left.
    + destruct (decide (d = d)); [|done].
      repeat split; try done; try lia. left. repeat split; try done. lia.
    + destruct (decide (d = d)); [|done].
      repeat split; try done; try lia. right. repeat split; try done. lia.
  - unfold iterating, fire. project_driver. repeat split; try done. by right.
Qed.

Lemma iterating_tick cb d n k w :
  iterating cb d n w -> iterating cb d n (tick k w).
Proof.
  intros (Hd & Hn & Hcb & Ht & Hocc & Hphase). unpack_driver w.
  unfold iterating, tick. project_driver. repeat split; try done. lia.
Qed.

Lemma iterating_host cb d n es w :
  forallb host_event es = true ->
  iterating cb d n w -> iterating cb d n (run es w).
Proof.
  revert w. induction es as [|e es IH]; intros w Hes Hw; [done|].
  simpl in Hes. apply andb_prop in Hes as [He Hes].
  change (run (e :: es) w) with (run es (exec e w)).
  apply IH; [done|]. destruct e; try discriminate; cbn [exec].
  - by apply iterating_fire.
  - by apply iterating_tick.
Qed.

(** One more frame after the duration has passed completes the
    iteration. *)
Lemma iterating_progress cb d n w :
  iterating cb d n w -> _running (self w) = true ->
  _currentIterationCount (self (run [Tick (Z.to_nat d); Fire] w))
    = _currentIterationCount (self w) + 1.
Proof.
  intros (Hd & Hn & Hcb & Ht & Hocc & Hphase) Hr. unpack_driver w. subst.
  destruct Hphase as [(_ & -> & Hcur)|(? & _)]; [|done].
  unfold run. cbn [fold_left exec]. unfold tick. project_driver.
  rewrite fire_world.
  destruct (decide (_ < d)); [lia|].
  by destruct (decide (cur + 1 < n)).
Qed.

Lemma iterating_settles cb d n :
  forall (m : nat) (w : world),
    iterating cb d n w ->
    Z.max 1 n - _currentIterationCount (self w) <= Z.of_nat m ->
    exists es, forallb host_event es = true
               /\ _running (self (run es w)) = false.
Proof.
  induction m as [|m IH]; intros w Hw Hm.
  - exists []. split; [done|].
    destruct Hw as (_ & _ & _ & _ & _ & [(_ & _ & Hc)|(? & _)]); [lia|done].
  - destruct (_running (self w)) eqn:Hr; [|by exists []].
    pose proof (iterating_progress cb d n w Hw Hr) as Hp.
    pose proof (iterating_host cb d n [Tick (Z.to_nat d); Fire] w eq_refl Hw)
      as Hw1.
    destruct (IH _ Hw1 ltac:(lia)) as (es & Hes & Hidle).
    exists ([Tick (Z.to_nat d); Fire] ++ es). split.
    + by rewrite forallb_app, Hes.
    + by rewrite driver_run_app.
Qed.

(** X10. A driver started with duration [d] and iteration count [n] makes
    one terminal call (elapsed = [d]) per completed iteration; whenever it
    has settled idle it has played [max 1 n] iterations, no frame is left
    scheduled, and it always can settle: an iteration count of 0 or less
    still plays once. *)
Theorem iterations_played (cb : CallbackRef) (d n t0 : Z) (es : list event) :
  forallb host_event es = true ->
  let w := run es (start (fresh (Some d) (Some n) cb t0)) in
  Z.of_nat (occurrences d (elapsed w)) = _currentIterationCount (self w)
  /\ (_running (self w) = false ->
      Z.of_nat (occurrences d (elapsed w)) = Z.max 1 n /\ frames w = [])
  /\ exists es', forallb host_event es' = true
                 /\ _running (self (run es' w)) = false.
Proof.
  intros Hes w.
  pose proof (iterating_host cb d n es _ Hes (iterating_start cb d n t0)) as Hw.
  fold w in Hw. split; [|split].
  - by destruct Hw as (_ & _ & _ & _ & Hocc & _).
  - intros Hr.
    destruct Hw as (_ & _ & _ & _ & Hocc & [(? & _)|(_ & Hf & Hc)]);
      [congruence|]. split; [lia|done].
  - apply (iterating_settles cb d n
             (Z.to_nat (Z.max 1 n - _currentIterationCount (self w))) w Hw).
    lia.
Qed.

Lemma iterations_played_witness :
  let w := run [Tick 10; Fire; Tick 10; Fire]
               (start (fresh (Some 20) (Some 0) 5%nat 0)) in
  _running (self w) = false /\ elapsed w = [10; 20]
  /\ Z.of_nat (occurrences 20 (elapsed w)) = Z.max 1 0.
Proof.
  intros w. split; [reflexivity|]. split; [reflexivity|].
  exact (proj1 (proj1 (proj2 (iterations_played 5%nat 20 0 0
                  [Tick 10; Fire; Tick 10; Fire] eq_refl)) eq_refl)).
Defined.

(** *** What the callback is handed *)

(** Method calls that leave the configured duration alone. *)
Definition keeps_duration (e : event) : bool :=
  match e with SetDuration _ => false | _ => true end.

Definition bounded (d : Z) (w : world) : Prop :=
  duration (self w) = d
  /\ (_running (self w) = true -> _time (self w) <= now w)
  /\ Forall (fun x => 0 <= x <= d) (elapsed w).

Lemma bounded_exec d e w :
  0 <= d -> keeps_duration e = true -> bounded d w -> bounded d (exec e w).
Proof.
  intros Hd He (Hdur & Htime & Hall). unpack_driver w. subst.
  destruct e; try discriminate; cbn [exec].
  - rewrite start_world. destruct rng; unfold bounded; project_driver;
      rewrite ?elapsed_world in *; repeat split; try done; intros; lia.
  - rewrite stop_world. unfold bounded. project_driver.
    rewrite ?elapsed_world in *. repeat split; try done.
    rewrite map_app, Forall_app. split; [done|].
    destruct rng, cbk; cbn [call map snd]; repeat constructor; lia.
  - unfold doFrame, with_self, bounded. project_driver.
    by rewrite ?elapsed_world in *.
  - unfold setIterationCount, with_self, bounded. project_driver.
    by rewrite ?elapsed_world in *.
  - destruct fs as [|[] fs]; [done|]. rewrite fire_world.
    destruct rng; [|done]. specialize (Htime eq_refl).
    destruct (decide (clk - tm < d)) as [Hlt|Hge];
      [|destruct (decide (cur + 1 < cnt))];
      unfold bounded; project_driver; rewrite ?elapsed_world in *;
      (split; [done|]); (split; [intros; first [lia|discriminate]|]);
      rewrite map_app, Forall_app; (split; [done|]);
      destruct cbk; cbn [call map snd]; repeat constructor; lia.
  - unfold tick, bounded. project_driver. rewrite ?elapsed_world in *.
    repeat split; try done. intros Hr. specialize (Htime Hr). lia.
Qed.

(** X11. Whatever the driver is put through (start, stop, frames, time,
    a new callback, a new iteration count, in any order) as long as the
    duration [d >= 0] it was constructed with is not changed, every elapsed
    time handed to the frame callback lies between 0 and [d]. *)
Theorem elapsed_within_duration (d t0 : Z) (n : option Z) (es : list event) :
  0 <= d -> forallb keeps_duration es = true ->
  Forall (fun x => 0 <= x <= d)
         (elapsed (run es (World (new (Some d) n) t0 [] []))).
Proof.
  intros Hd Hes.
  assert (forall w, bounded d w -> bounded d (run es w)) as Hrun.
  { induction es as [|e es IH]; intros w Hw; [done|].
    simpl in Hes. apply andb_prop in Hes as [He Hes].
    change (run (e :: es) w) with (run es (exec e w)).
    apply IH; [done|]. by apply bounded_exec. }
  apply Hrun. unfold bounded, new. project_driver. cbn [default].
  repeat split; [discriminate|constructor].
Qed.

Lemma elapsed_within_duration_witness :
  Forall (fun x => 0 <= x <= 100)
    (elapsed (run [DoFrame 5%nat; Start; Tick 30; Fire; Stop; Start; Tick 120;
                   Fire; Fire]
                  (World (new (Some 100) None) 7 [] []))).
Proof.
  apply (elapsed_within_duration 100 7 None); [lia|reflexivity].
Defined.

(** X12. [stop()] cancels no frame and [start()] always requests one: on a
    running driver with one frame pending, [stop(); start()] leaves two
    frames pending, and from then on each of them runs the loop: after [k]
    ms, below the duration, the two frames both call the callback and both
    request a frame again. *)
Theorem restart_doubles_frames (w : world) (c : CallbackRef) (k : nat) :
  _running (self w) = true ->
  _doFrameCallback (self w) = Some c ->
  frames w = [Step] ->
  Z.of_nat k < duration (self w) ->
  frames (start (stop w)) = [Step; Step]
  /\ let w2 := fire (fire (tick k (start (stop w)))) in
     frames w2 = [Step; Step]
     /\ _running (self w2) = true
     /\ calls w2 = calls w ++ [(c, duration (self w)); (c, Z.of_nat k);
                               (c, Z.of_nat k)].
Proof.
  intros Hr Hcb Hfs Hk. unpack_driver w. subst.
  rewrite stop_world, start_world. cbn [call]. split; [done|]. cbv zeta.
  unfold tick. project_driver. cbn [app]. rewrite fire_world.
  destruct (decide (clk + Z.of_nat k - clk < dur)); [|lia].
  cbn [app]. rewrite fire_world.
  destruct (decide (clk + Z.of_nat k - clk < dur)); [|lia].
  project_driver. cbn [call app]. repeat split.
  rewrite <- !app_assoc. cbn [app].
  by replace (clk + Z.of_nat k - clk) with (Z.of_nat k) by lia.
Qed.

Lemma restart_doubles_frames_witness :
  let w := run [Start; Tick 10] (fresh (Some 100) None 5%nat 0) in
  calls (fire (fire (tick 16 (start (stop w)))))
    = [(5%nat, 100); (5%nat, 16); (5%nat, 16)].
Proof.
  intros w.
  exact (proj2 (proj2 (proj2 (restart_doubles_frames w 5%nat 16
                  eq_refl eq_refl eq_refl eq_refl)))).
Defined.

(** X13. The setters act on the iteration under way: the frame that fires
    next compares the elapsed time with the duration set last, so a
    duration lowered to the elapsed time or below ends the iteration at
    that frame, with the new duration as the terminal elapsed time; and
    whether another iteration follows is decided by the iteration count set
    last. *)
Theorem setters_act_at_next_frame (w : world) (c : CallbackRef)
    (fs : list frame) (d' n' : Z) :
  _running (self w) = true ->
  _doFrameCallback (self w) = Some c ->
  frames w = Step :: fs ->
  d' <= now w - _time (self w) ->
  let w' := fire (setIterationCount n' (setDuration d' w)) in
  calls w' = calls w ++ [(c, d')]
  /\ _currentIterationCount (self w') = _currentIterationCount (self w) + 1
  /\ _running (self w')
     = bool_decide (_currentIterationCount (self w) + 1 < n').
Proof.
  intros Hr Hcb Hfs Hd. destruct w as [[dur cnt cbk cur rng tm] clk fs0 cs].
  project_driver. subst. cbv zeta.
  unfold setIterationCount, setDuration, with_self. project_driver.
  rewrite fire_world. destruct (decide (clk - tm < d')); [lia|].
  cbn [call]. destruct (decide (cur + 1 < n')) as [Hlt|Hge]; project_driver.
  - by rewrite bool_decide_eq_true_2.
  - by rewrite bool_decide_eq_false_2.
Qed.

Lemma setters_act_at_next_frame_witness :
  let w := run [Start; Tick 40] (fresh (Some 100) None 5%nat 0) in
  calls (fire (setIterationCount 1 (setDuration 30 w))) = [(5%nat, 30)].
Proof.
  intros w.
  exact (proj1 (setters_act_at_next_frame w 5%nat [] 30 1
                  eq_refl eq_refl eq_refl ltac:(vm_compute; discriminate))).
Defined.

End AnimationExtra.

(** ** More on the surface manager *)

Module CanvasExtra.
Import Number Canvas CanvasFacts.

(** *** Nothing throws *)

Lemma destroy_completes w :
  exists w', destroy w = Normal w'
    /\ destroy w' = Normal w'
    /\ installed (_resizeObserver (self w')) = false
    /\ installed (_mediaQueryList (self w')) = false
    /\ frames w' = frames w /\ log w' = log w.
Proof.
  unpack w. destruct ro as [[r1]|], mq as [[r2]|]; eexists;
    (split; [reflexivity|]); by unfold_canvas.
Qed.

Lemma exec_completes e w : exists w', exec e w = Normal w'.
Proof.
  destruct e; cbn [exec]; try by eexists.
  - destruct (destroy_completes w) as (w' & -> & _). by eexists.
  - destruct (probing w); by eexists.
  - destruct (_mediaQueryList _) as [[[|]]|]; by eexists.
  - destruct (_resizeObserver _) as [[[|]]|]; by eexists.
  - destruct (frames w) as [|[h f] fs]; by eexists.
Qed.

Lemma run_completes es w : exists w', run es w = Normal w'.
Proof.
  revert w. induction es as [|e es IH]; intros w; [by eexists|].
  cbn [run]. destruct (exec_completes e w) as [w1 ->]. apply IH.
Qed.

(** The platform notifications. *)
Definition notification (e : event) : bool :=
  match e with DensityChanges _ | ResizeReported _ => true | _ => false end.

Lemma notification_inert e w :
  notification e = true ->
  installed (_resizeObserver (self w)) = false ->
  installed (_mediaQueryList (self w)) = false ->
  exists w', exec e w = Normal w' /\ self w' = self w
             /\ frames w' = frames w /\ log w' = log w.
Proof.
  intros He Hro Hmq. destruct e; try discriminate; cbn [exec]; project.
  - destruct (_mediaQueryList (self w)) as [[[|]]|]; try discriminate;
      by eexists.
  - destruct (_resizeObserver (self w)) as [[[|]]|]; try discriminate;
      by eexists.
Qed.



(** *** Invariants of the reachable states *)

(** What every state reached from a new canvas satisfies. Until the first
    reconciliation the recorded pixel size is 0 by 0 and the buffer has the
    default size of a canvas element; from the first reconciliation on the
    buffer has the size the element makes of the recorded pixel size. The
    probe's outcome, the support flag and the observer fields agree; and
    every frame requested so far was either painted, exactly once, or is
    the one still pending. *)
Definition consistent (w : world) : Prop :=
  match reconciliations (log w) with
  | O =>
    _pixelWidth (self w) = Int 0 /\ _pixelHeight (self w) = Int 0
    /\ width (elem w) = DEFAULT_WIDTH /\ height (elem w) = DEFAULT_HEIGHT
  | S _ =>
    width (elem w) = dimension DEFAULT_WIDTH (_pixelWidth (self w))
    /\ height (elem w) = dimension DEFAULT_HEIGHT (_pixelHeight (self w))
  end
  /\ match probing w with
     | Pending =>
       _resizeObserver (self w) = None /\ _mediaQueryList (self w) = None
       /\ _supportedDevicePixelContentBox (self w) = false
     | Settled =>
       if _supportedDevicePixelContentBox (self w)
       then isValid (_resizeObserver (self w)) = true
            /\ _mediaQueryList (self w) = None
       else _resizeObserver (self w) = None
            /\ isValid (_mediaQueryList (self w)) = true
     end
  /\ S (paints (log w) + length (frames w)) = Pos.to_nat (next_handle w)
  /\ (reconciliations (log w) <= paints (log w))%nat.

Lemma _executeListener_consistent f w :
  consistent w -> consistent (_executeListener f w).
Proof.
  unfold consistent, _executeListener. intros Hw.
  destruct (decide _); [|done]. unpack w.
  destruct Hw as (? & ? & Hcount & ?). repeat split; try done.
  rewrite length_app. cbn [length]. rewrite Pos2Nat.inj_succ. lia.
Qed.

Lemma consistent_elem_css x y w :
  consistent w ->
  consistent (World (self w) (Element x y (width (elem w)) (height (elem w)))
                    (devicePixelRatio w) (probing w) (frames w)
                    (next_handle w) (log w)).
Proof. by unpack w. Qed.

Lemma consistent_set_next a b w :
  consistent w -> consistent (with_self (set_next a b) w).
Proof. by unpack w. Qed.

Lemma consistent_density r w :
  consistent w ->
  consistent (World (self w) (elem w) r (probing w) (frames w)
                    (next_handle w) (log w)).
Proof. by unpack w. Qed.

Lemma exec_consistent e w w' :
  consistent w -> exec e w = Normal w' -> consistent w'.
Proof.
  intros Hw He. destruct e as [x y| |b|r|size|]; cbn [exec] in He; project.
  - injection He as <-. unfold update.
    destruct (decide _); [destruct (negb _)|].
    + by apply _executeListener_consistent, consistent_set_next,
        consistent_elem_css.
    + by apply consistent_elem_css.
    + by apply _executeListener_consistent.
  - unpack w. unfold consistent in *. project.
    destruct Hw as (? & Hobs & ? & ?).
    destruct ro as [[r1]|], mq as [[r2]|]; unfold_canvas;
      injection He as <-; project; repeat split; try done;
      destruct pr, sup; intuition congruence.
  - unpack w. unfold consistent in *. project.
    destruct Hw as (? & Hobs & ? & ?).
    destruct pr; injection He as <-; [|done].
    destruct Hobs as (-> & -> & ->). by destruct b.
  - destruct (_mediaQueryList (self w)) as [[[|]]|] eqn:E;
      injection He as <-; try by apply consistent_density.
    unfold _mediaQueryListener, _resetPixelRatio.
    apply _executeListener_consistent, consistent_set_next.
    by apply consistent_density.
  - destruct (_resizeObserver (self w)) as [[[|]]|]; injection He as <-;
      try done.
    unfold resizeObserverCallback. destruct size as [[a b]|]; [|done].
    destruct (_ || _);
      [apply _executeListener_consistent|]; by apply consistent_set_next.
  - destruct (frames w) as [|[h f] rest] eqn:E; injection He as <-; [done|].
    unpack w. subst. unfold consistent in *. project.
    destruct Hw as (Hbuf & Hobs & Hcount & Hrec). cbn [length] in Hcount.
    destruct f as [[]|].
    + rewrite frame_body_reset. project.
      rewrite paints_app, reconciliations_app.
      change (paints [_; _; _; _]) with 1%nat.
      change (reconciliations [_; _; _; _]) with 1%nat.
      rewrite Nat.add_1_r.
      repeat split; try done; lia.
    + rewrite frame_body_plain. project.
      rewrite paints_app, reconciliations_app.
      change (paints [_; _]) with 1%nat.
      change (reconciliations [_; _]) with 0%nat.
      rewrite Nat.add_0_r.
      repeat split; try done; lia.
Qed.

(** X15. In every state a canvas reaches from construction, whatever its
    CSS box, the display density, the calls and the host events: until the
    first reconciliation the recorded pixel size is 0 by 0 and the buffer
    has the default size 300 by 150, and from the first reconciliation on
    the buffer has the size the element makes of the recorded pixel size;
    before the probe settles nothing is installed and the canvas is on the
    fallback path; once it has settled exactly one of the resize observer
    and the media-query list was created, the one the support flag names;
    every frame requested was painted exactly once or is the one pending;
    and there are never more reconciliations than paints. *)
Theorem reachable_consistent (cw ch : Z) (pixelRatio : float)
    (es : list event) (w : world) :
  run es (new cw ch pixelRatio) = Normal w -> consistent w.
Proof.
  assert (forall w0, consistent w0 -> run es w0 = Normal w -> consistent w)
    as Hrun.
  { induction es as [|e es IH]; intros w0 Hw0 Hrun; cbn [run] in Hrun.
    - by injection Hrun as <-.
    - destruct (exec e w0) as [w1|] eqn:He; [|done].
      eapply IH; [|done]. by eapply exec_consistent. }
  apply Hrun. unfold consistent, new. project.
  change (reconciliations []) with 0%nat. repeat split; try done.
Qed.

Lemma reachable_consistent_witness :
  consistent
    (World (Make None (Some (Observer true)) false 200 80
                 (Int 300) (Int 120) (Int 300) (Int 120) (-1))
           (Element 200 80 300 120) 1.5 Settled [] 2%positive
           [ClearRect 0 0; Resize 300 120; Scale (Int 300) 200 (Int 120) 80;
            Paint 300 120]).
Proof.
  apply (reachable_consistent 0 0 1
           [ProbeSettles false; Update 100 50; Update 200 80;
            DensityChanges 1.5; Fire]).
  vm_compute. reflexivity.
Defined.

(** *** The two resize paths *)

(** [update] with a new size where the platform reports pixel sizes: only
    the CSS box changes. *)
Lemma update_supported x y ro mq wd ht pwd pht nwd nht rid cw ch ew eh r pr fs nx lg :
  wd <> x \/ ht <> y ->
  update x y
    (World (Make ro mq true wd ht pwd pht nwd nht rid) (Element cw ch ew eh)
           r pr fs nx lg)
  = World (Make ro mq true wd ht pwd pht nwd nht rid)
          (Element (style_length cw x) (style_length ch y) ew eh)
          r pr fs nx lg.
Proof.
  intros H. unfold update. project.
  by destruct (decide (wd <> x \/ ht <> y)).
Qed.

(** The element takes a pixel size from 0 to 2^31 - 1 as it is. *)
Lemma dimension_in_range default n :
  0 <= n <= 2147483647 -> dimension default (Int n) = n.
Proof.
  intros Hn. unfold dimension, ToUint32.
  rewrite Z.mod_small by lia.
  destruct (decide (n <= 2147483647)); [done|lia].
Qed.

Lemma strict_equal_Int p n : strict_equal p (Int n) = true <-> p = Int n.
Proof.
  destruct p as [m| |s]; cbn [strict_equal]; [|done|done].
  rewrite bool_decide_eq_true. split; congruence.
Qed.

(** X16. The fallback path. On a canvas without pixel-size reporting and
    with no frame pending, [update(x, y)] with a new size, neither length
    negative, followed by the frame leaves the logical size at [x, y] and
    the recorded pixel size at [Math.round(x * density)] by
    [Math.round(y * density)], the products being products of doubles; the
    buffer takes the size the element makes of these, which is the pixel
    size itself when that is an integer from 0 to 2^31 - 1. The frame
    clears once at the old logical size, rescales once and paints once; no
    frame is left pending. The same [update] again is a plain repaint: one
    clear, one paint, no size changes. *)
Theorem update_then_frame (w : world) (x y : Z) :
  _supportedDevicePixelContentBox (self w) = false ->
  _requestAnimationId (self w) = DEFAULT_REQUEST_ID -> frames w = [] ->
  _width (self w) <> x \/ _height (self w) <> y ->
  0 <= x -> 0 <= y ->
  let px := scaled x (devicePixelRatio w) in
  let py := scaled y (devicePixelRatio w) in
  let bw := dimension DEFAULT_WIDTH px in
  let bh := dimension DEFAULT_HEIGHT py in
  (forall n, px = Int n -> 0 <= n <= 2147483647 -> bw = n)
  /\ (forall n, py = Int n -> 0 <= n <= 2147483647 -> bh = n)
  /\ exists w1,
    run [Update x y; Fire] w = Normal w1
    /\ _width (self w1) = x /\ _height (self w1) = y
    /\ _pixelWidth (self w1) = px /\ _pixelHeight (self w1) = py
    /\ width (elem w1) = bw /\ height (elem w1) = bh
    /\ log w1 = log w ++ [ClearRect (_width (self w)) (_height (self w));
                          Resize bw bh; Scale px x py y; Paint bw bh]
    /\ frames w1 = []
    /\ _requestAnimationId (self w1) = DEFAULT_REQUEST_ID
    /\ exists w2,
         run [Update x y; Fire] w1 = Normal w2
         /\ self w2 = self w1 /\ elem w2 = elem w1
         /\ log w2 = log w1 ++ [ClearRect x y; Paint bw bh].
Proof.
  intros Hsup Hid Hfs Hsize Hx Hy. unpack w. unfold DEFAULT_REQUEST_ID in *.
  subst. cbv zeta.
  split; [intros n -> Hn; by apply dimension_in_range|].
  split; [intros n -> Hn; by apply dimension_in_range|].
  cbn [run exec]. rewrite update_changed by done.
  rewrite _executeListener_idle. cbn [app]. project.
  rewrite frame_body_reset. rewrite !style_length_valid by done.
  eexists. split; [reflexivity|]. project.
  unfold DEFAULT_REQUEST_ID. repeat split.
  cbn [run exec]. rewrite update_same, _executeListener_idle. cbn [app].
  project. rewrite frame_body_plain. eexists. split; [reflexivity|]. done.
Qed.

(** Witness of X16: at density 1.7 a width of 5 gives 9 pixels, the double
    product 5 * 1.7 being 8.5. *)
Lemma update_then_frame_witness :
  exists w1,
    run [Update 5 10; Fire] (new 0 0 1.7) = Normal w1
    /\ _pixelWidth (self w1) = Int 9 /\ _pixelHeight (self w1) = Int 17
    /\ width (elem w1) = 9 /\ height (elem w1) = 17.
Proof.
  destruct (update_then_frame (new 0 0 1.7) 5 10 eq_refl eq_refl eq_refl
              ltac:(left; discriminate) ltac:(lia) ltac:(lia))
    as (_ & _ & w1 & Hrun & _ & _ & Hpw & Hph & Hbw & Hbh & _).
  exists w1. split; [exact Hrun|].
  split; [exact Hpw|]. split; [exact Hph|]. split; [exact Hbw|exact Hbh].
Defined.

(** X17. The observer path. Where the platform reports pixel sizes and the
    resize observer is installed, [update(x, y)] with a new size, neither
    length negative, requests no frame and paints nothing by itself: the
    repaint comes with the observer's report. A report of a pixel size
    other than the recorded one requests the frame that, when it fires,
    sets the logical size to [x, y], the recorded pixel size to the
    reported one and the buffer to the size the element makes of it; a
    report of the recorded pixel size requests nothing, and the recorded
    logical size stays as it was. *)
Theorem update_on_observer_path (w : world) (x y : Z) :
  _supportedDevicePixelContentBox (self w) = true ->
  _resizeObserver (self w) = Some (Observer true) ->
  _requestAnimationId (self w) = DEFAULT_REQUEST_ID -> frames w = [] ->
  _width (self w) <> x \/ _height (self w) <> y ->
  0 <= x -> 0 <= y ->
  frames (update x y w) = [] /\ log (update x y w) = log w
  /\ self (update x y w) = self w
  /\ (forall a b,
        _pixelWidth (self w) <> Int a \/ _pixelHeight (self w) <> Int b ->
        exists w1,
          run [Update x y; ResizeReported (Some (a, b)); Fire] w = Normal w1
          /\ _width (self w1) = x /\ _height (self w1) = y
          /\ _pixelWidth (self w1) = Int a /\ _pixelHeight (self w1) = Int b
          /\ width (elem w1) = dimension DEFAULT_WIDTH (Int a)
          /\ height (elem w1) = dimension DEFAULT_HEIGHT (Int b)
          /\ log w1 = log w ++ [ClearRect (_width (self w)) (_height (self w));
                                Resize (dimension DEFAULT_WIDTH (Int a))
                                       (dimension DEFAULT_HEIGHT (Int b));
                                Scale (Int a) x (Int b) y;
                                Paint (dimension DEFAULT_WIDTH (Int a))
                                      (dimension DEFAULT_HEIGHT (Int b))])
  /\ (forall a b,
        _pixelWidth (self w) = Int a -> _pixelHeight (self w) = Int b ->
        exists w1,
          run [Update x y; ResizeReported (Some (a, b))] w = Normal w1
          /\ frames w1 = [] /\ log w1 = log w
          /\ _width (self w1) = _width (self w)
          /\ _height (self w1) = _height (self w)).
Proof.
  intros Hsup Hro Hid Hfs Hsize Hx Hy. unpack w. unfold DEFAULT_REQUEST_ID in *.
  subst. rewrite update_supported by done. project.
  split; [done|]. split; [done|]. split; [done|]. split.
  - intros a b Hpx. cbn [run exec]. rewrite update_supported by done.
    project. unfold resizeObserverCallback, with_self, set_next. project.
    assert (negb (strict_equal pwd (Int a)) || negb (strict_equal pht (Int b))
            = true) as ->.
    { apply orb_true_iff. rewrite !negb_true_iff.
      destruct Hpx as [Hpx|Hpx]; [left|right];
        (destruct (strict_equal _ _) eqn:E; [|done]);
        apply strict_equal_Int in E; done. }
    unfold _resetPixelRatio. rewrite _executeListener_idle. cbn [app].
    project. rewrite frame_body_reset. rewrite !style_length_valid by done.
    eexists. split; [reflexivity|]. done.
  - intros a b -> ->. cbn [run exec]. rewrite update_supported by done.
    project. unfold resizeObserverCallback, with_self, set_next. project.
    assert (negb (strict_equal (Int a) (Int a))
            || negb (strict_equal (Int b) (Int b)) = false) as ->.
    { cbn [strict_equal]. by rewrite !bool_decide_eq_true_2. }
    eexists. split; [reflexivity|]. done.
Qed.

Lemma update_on_observer_path_witness :
  exists w1,
    run [Update 100 50; ResizeReported (Some (200, 100)); Fire]
        (World (Make (Some (Observer true)) None true 0 0
                     (Int 0) (Int 0) (Int 0) (Int 0) (-1))
               (Element 0 0 300 150) 2 Settled [] 1%positive [])
      = Normal w1
    /\ _pixelWidth (self w1) = Int 200 /\ _pixelHeight (self w1) = Int 100.
Proof.
  destruct (proj1 (proj2 (proj2 (proj2
              (update_on_observer_path
                 (World (Make (Some (Observer true)) None true 0 0
                              (Int 0) (Int 0) (Int 0) (Int 0) (-1))
                        (Element 0 0 300 150) 2 Settled [] 1%positive [])
                 100 50 eq_refl eq_refl eq_refl eq_refl
                 ltac:(left; discriminate) ltac:(lia) ltac:(lia)))))
            200 100 ltac:(left; discriminate))
    as (w1 & Hrun & _ & _ & Hpw & Hph & _).
  exists w1. split; [exact Hrun|]. split; [exact Hpw|exact Hph].
Defined.

(** *** Coalescing *)

(** X18. In every state a canvas reaches from construction, at most one
    frame request is in flight, and [_executeListener] issues a request only
    when none is pending. While a frame is pending, any number of [update]
    calls and density or size notifications request nothing and invoke
    nothing; when the frame then fires, the paint listener is invoked
    exactly once and no request is left pending; and if the pending frame
    carries the reconciliation (it was requested for a size or density
    change), it reconciles exactly once, to the pixel dimensions pending
    when it fires, and the paint finds the buffer at the size the element
    makes of them. In particular, on a newly constructed canvas two
    [update] calls before any frame fires, each with a size other than
    0 by 0 and the second with no negative length, give one clear, one
    reconciliation to the second size and one paint. *)
Theorem frame_coalescing (cw ch : Z) (pixelRatio : float) (pre : list event)
    (w : world) :
  run pre (new cw ch pixelRatio) = Normal w ->
  single_frame w
  /\ (forall g, _requestAnimationId (self w) <> DEFAULT_REQUEST_ID ->
        _executeListener g w = w)
  /\ (forall h f es,
        frames w = [(h, f)] -> forallb trigger es = true ->
        exists w1 w2,
          run es w = Normal w1
          /\ frames w1 = [(h, f)] /\ log w1 = log w
          /\ run (es ++ [Fire]) w = Normal w2
          /\ frames w2 = []
          /\ _requestAnimationId (self w2) = DEFAULT_REQUEST_ID
          /\ paints (log w2) = S (paints (log w))
          /\ (f = Some ResetPixelRatio ->
              reconciliations (log w2) = S (reconciliations (log w))
              /\ _pixelWidth (self w2) = _nextPixelWidth (self w1)
              /\ _pixelHeight (self w2) = _nextPixelHeight (self w1)
              /\ last (log w2)
                 = Some (Paint (dimension DEFAULT_WIDTH (_nextPixelWidth (self w1)))
                               (dimension DEFAULT_HEIGHT (_nextPixelHeight (self w1))))))
  /\ (forall x1 y1 x2 y2,
        (x1 <> 0 \/ y1 <> 0) -> (x2 <> 0 \/ y2 <> 0) -> 0 <= x2 -> 0 <= y2 ->
        let px := scaled x2 pixelRatio in
        let py := scaled y2 pixelRatio in
        exists w2,
          run [Update x1 y1; Update x2 y2; Fire] (new cw ch pixelRatio)
            = Normal w2
          /\ log w2 = [ClearRect 0 0;
                       Resize (dimension DEFAULT_WIDTH px)
                              (dimension DEFAULT_HEIGHT py);
                       Scale px x2 py y2;
                       Paint (dimension DEFAULT_WIDTH px)
                             (dimension DEFAULT_HEIGHT py)]
          /\ _width (self w2) = x2 /\ _height (self w2) = y2
          /\ _pixelWidth (self w2) = px /\ _pixelHeight (self w2) = py).
Proof.
  intros Hpre.
  assert (single_frame w) as Hsingle.
  { eapply run_single; [|exact Hpre]. by left. }
  split; [done|]. split; [intros g; apply _executeListener_absorbed|]. split.
  - intros h f es Hfs Hes.
    assert (_requestAnimationId (self w) = Z.pos h) as Hid.
    { destruct Hsingle as [[_ Hnil]|(h' & g & Hid & Hfs')]; [congruence|].
      rewrite Hfs in Hfs'. by injection Hfs' as -> _. }
    destruct (triggers_absorbed es w h f Hes Hid Hfs) as (w1 & Hrun & Hid1 & Hfs1 & Hl1).
    destruct (fire_pending w1 h f Hfs1)
      as (w2 & Hfire & Hfs2 & Hid2 & Hp & Hrec).
    exists w1, w2. rewrite canvas_run_app, Hrun. simpl in *. rewrite Hfire.
    repeat split; try done.
    + by rewrite Hp, Hl1.
    + destruct (Hrec H) as (_ & Hr & _). by rewrite Hr, Hl1.
    + by destruct (Hrec H) as (_ & _ & ? & _).
    + by destruct (Hrec H) as (_ & _ & _ & ? & _).
    + destruct (Hrec H) as (Hlog & _). rewrite Hlog.
      match goal with
      | |- last (_ ++ [?a; ?b; ?c; ?d]) = _ =>
        change [a; b; c; d] with ([a; b; c] ++ [d])
      end.
      by rewrite app_assoc, last_snoc.
  - intros x1 y1 x2 y2 H1 H2 Hx Hy. cbv zeta. eexists. split.
    + unfold new, DEFAULT_REQUEST_ID. cbn [run exec].
      rewrite update_changed by lia.
      rewrite _executeListener_idle. cbn [app].
      rewrite update_changed by lia.
      rewrite _executeListener_absorbed by (project; discriminate).
      project. rewrite frame_body_reset.
      rewrite !style_length_valid by done. reflexivity.
    + done.
Qed.

(** Witness of X18: on the fallback path (probe settled with [false],
    density 1) a size-changing update has a frame pending; a second update
    and a density change to 2 arrive before it fires. *)
Lemma frame_coalescing_witness :
  exists w1 w2,
    run [Update 200 80; DensityChanges 2]
        (World (Make None (Some (Observer true)) false 0 0
                     (Int 0) (Int 0) (Int 100) (Int 50) 1)
               (Element 100 50 300 150) 1 Settled
               [(1%positive, Some ResetPixelRatio)] 2%positive [])
      = Normal w1
    /\ run ([Update 200 80; DensityChanges 2] ++ [Fire])
           (World (Make None (Some (Observer true)) false 0 0
                        (Int 0) (Int 0) (Int 100) (Int 50) 1)
                  (Element 100 50 300 150) 1 Settled
                  [(1%positive, Some ResetPixelRatio)] 2%positive [])
         = Normal w2
    /\ log w2 = [ClearRect 0 0; Resize 400 160;
                 Scale (Int 400) 200 (Int 160) 80; Paint 400 160].
Proof.
  destruct (proj1 (proj2 (proj2
              (frame_coalescing 0 0 1 [ProbeSettles false; Update 100 50] _
                 ltac:(vm_compute; reflexivity))))
              1%positive (Some ResetPixelRatio)
              [Update 200 80; DensityChanges 2] eq_refl eq_refl)
    as (w1 & w2 & H1 & _ & _ & H2 & _).
  exists w1, w2. split; [exact H1|]. split; [exact H2|].
  vm_compute in H2. injection H2 as <-. reflexivity.
Defined.

End CanvasExtra.
